(** * diff/walking/differ.go: the walking differ

    A shallow embedding of [readonlyOverlay], [Compare] and [uniqueRef]
    from [diff/walking/differ.go], together with the properties of the
    diff-and-store protocol that the specification states about them.

    Go strings are [string]; byte streams are [list Byte.byte]; Go maps
    ([map[string]string]) are [gmap string string], wrapped in [option]
    where the code distinguishes a nil map from an allocated one; slices
    updated by index are lists with stdpp's [<[i:=x]>].  The collaborators
    the file only imports (the content store, the mount package, the
    archive writer, the compressor, the digester) are an interface record
    over an abstract world, and every call made on them is recorded in a
    trace together with its outcome. *)

From Stdlib Require Import String Ascii ZArith List.
From Stdlib.Strings Require Import Byte.
From stdpp Require Import base tactics option list strings pretty gmap.

Local Open Scope string_scope.
Local Open Scope list_scope.
Local Open Scope Z_scope.

(** ** Go's [strings] package, as far as the file uses it *)

Module strings.

(** [strings.HasPrefix(s, prefix)]. *)
Fixpoint HasPrefix (s prefix : string) {struct prefix} : bool :=
  match prefix with
  | EmptyString => true
  | String c prefix' =>
      match s with
      | EmptyString => false
      | String d s' => if Ascii.eqb c d then HasPrefix s' prefix' else false
      end
  end.

(** The tail of [s] after its first [n] characters. *)
Fixpoint skip (n : nat) (s : string) : string :=
  match n, s with
  | O, _ => s
  | S _, EmptyString => EmptyString
  | S n', String _ s' => skip n' s'
  end.

(** [strings.TrimPrefix(s, prefix)]: [s] without the leading [prefix],
    and [s] itself when it does not start with [prefix]. *)
Definition TrimPrefix (s prefix : string) : string :=
  if HasPrefix s prefix then skip (String.length prefix) s else s.

End strings.

(** ** [readonlyOverlay] (differ.go, lines 59-77) *)

(** State of the first loop: the slice [out] built so far and [upper]. *)
Definition scan_step (st : list string * string) (o : string)
  : list string * string :=
  let '(out, upper) := st in
  if strings.HasPrefix o "upperdir=" then
    (out, strings.TrimPrefix o "upperdir=")
  else if negb (strings.HasPrefix o "workdir=") then
    (out ++ [o], upper)
  else (out, upper).

(** [for _, o := range opt { ... }] *)
Definition scan (opt : list string) : list string * string :=
  fold_left scan_step opt ([], "").

(** [for i, o := range out { if HasPrefix(o, "lowerdir=") { out[i] = ... } }]:
    [pending] are the elements still to be visited, [i] the index of the
    first of them, [out] the slice as updated so far.  The loop only ever
    writes the slot it is visiting, so the element read at step [i] is the
    one the slice had when the loop started. *)
Fixpoint prepend_loop (upper : string) (i : nat) (pending out : list string)
  : list string :=
  match pending with
  | [] => out
  | o :: pending' =>
      let out' :=
        if strings.HasPrefix o "lowerdir=" then
          <[i := "lowerdir=" +:+ upper +:+ ":" +:+ strings.TrimPrefix o "lowerdir="]> out
        else out in
      prepend_loop upper (S i) pending' out'
  end.

Definition readonlyOverlay (opt : list string) : list string :=
  let '(out, upper) := scan opt in
  if negb (String.eqb upper "") then prepend_loop upper 0 out out
  else out.

(** ** Errors *)

(** Go's [error] values as the file builds and inspects them:
    [errors.New], [errors.Wrap]/[errors.Wrapf], and the two sentinels of
    [errdefs] that the file names.  A nil [error] is [None]. *)
Inductive error : Type :=
  | ErrAlreadyExists
  | ErrNotImplemented
  | ErrNew (msg : string)
  | Wrap (cause : error) (msg : string).

#[global] Instance error_eq_dec : EqDecision error.
Proof. solve_decision. Defined.

Module errors.
Definition New (msg : string) : error := ErrNew msg.

(** [errors.Cause]: the innermost error of a chain of wraps. *)
Fixpoint Cause (e : error) : error :=
  match e with
  | Wrap c _ => Cause c
  | _ => e
  end.
End errors.

Module errdefs.
(** Modelled from the spec: [errdefs.IsAlreadyExists] is not in this
    file; the store contract says commit returns an error or the
    already-exists error, which stays recognisable under wrapping. *)
Definition IsAlreadyExists (e : error) : bool :=
  bool_decide (errors.Cause e = ErrAlreadyExists).
End errdefs.

(** ** Data model *)

Abbreviation labels := (gmap string string).

(** [m[k]] read on a Go map that may be nil: the zero value when absent. *)
Definition map_index (m : option labels) (k : string) : string :=
  default "" (default ∅ m !! k).

(** [m[k] = v] on a map that has been allocated. *)
Definition map_assign (m : option labels) (k v : string) : option labels :=
  Some (<[k := v]> (default ∅ m)).

Module ocispec.
Record Descriptor : Type := mkDescriptor {
  MediaType : string;
  Digest : string;
  Size : Z
}.

(** [ocispec.Descriptor{}] *)
Definition zero : Descriptor := mkDescriptor "" "" 0.

Definition MediaTypeImageLayer : string :=
  "application/vnd.oci.image.layer.v1.tar".
Definition MediaTypeImageLayerGzip : string :=
  "application/vnd.oci.image.layer.v1.tar+gzip".
End ocispec.

#[global] Instance Descriptor_eq_dec : EqDecision ocispec.Descriptor.
Proof. solve_decision. Defined.

Module mount.
Record Mount : Type := mkMount {
  Type_ : string;
  Source : string;
  Options : list string
}.

Definition set_Options (m : Mount) (o : list string) : Mount :=
  mkMount (Type_ m) (Source m) o.
End mount.

#[global] Instance Mount_eq_dec : EqDecision mount.Mount.
Proof. solve_decision. Defined.

Module content.
Record Info : Type := mkInfo {
  Digest : string;
  Size : Z;
  Labels : option labels
}.

Definition set_Labels (i : Info) (l : option labels) : Info :=
  mkInfo (Digest i) (Size i) l.
End content.

#[global] Instance Info_eq_dec : EqDecision content.Info.
Proof. solve_decision. Defined.

(** A compressed stream: what reaches the destination writer once the
    raw bytes [raw] have been written and the stream closed. *)
Definition WriteCloser : Type := list byte → list byte.

Module diff.
(** [func(dest io.Writer, mediaType string) (io.WriteCloser, error)] *)
Definition Compressor : Type := string → error + WriteCloser.

Record Config : Type := mkConfig {
  MediaType : string;
  Reference : string;
  Labels : option labels;
  Compressor_ : option Compressor
}.

Definition zero : Config := mkConfig "" "" None None.

Definition set_MediaType (c : Config) (mt : string) : Config :=
  mkConfig mt (Reference c) (Labels c) (Compressor_ c).
Definition set_Reference (c : Config) (r : string) : Config :=
  mkConfig (MediaType c) r (Labels c) (Compressor_ c).
Definition set_Labels (c : Config) (l : option labels) : Config :=
  mkConfig (MediaType c) (Reference c) l (Compressor_ c).
Definition set_Compressor (c : Config) (f : option Compressor) : Config :=
  mkConfig (MediaType c) (Reference c) (Labels c) f.

(** [type Opt func(c) error], [c] a pointer to the [Config]: the
    configuration after the call and the error it returned. *)
Definition Opt : Type := Config → Config * option error.

(** Modelled from the spec: the recognized options of the configuration
    surface ([withMediaType], [withCompressor], [withReference],
    [withLabels]) are declared outside this file; each sets one field
    and cannot fail. *)
Definition WithMediaType (mt : string) : Opt :=
  λ c, (set_MediaType c mt, None).
Definition WithCompressor (f : Compressor) : Opt :=
  λ c, (set_Compressor c (Some f), None).
Definition WithReference (r : string) : Opt :=
  λ c, (set_Reference c r, None).
Definition WithLabels (l : labels) : Opt :=
  λ c, (set_Labels c (Some l), None).
End diff.

Definition emptyDesc : ocispec.Descriptor := ocispec.zero.
Definition uncompressed : string := "containerd.io/uncompressed".

(** ** The collaborators and the trace of calls made on them *)

(** One entry per call that [Compare] makes on a collaborator, with the
    arguments it passed and the outcome it got back.  [EvWriteDiff] covers
    the streaming of the diff up to the closing of the compressed stream:
    [raw] are the bytes the streamer produced and [written] the bytes
    that reached the store writer. *)
Inductive Event : Type :=
  | EvMount (mounts : list mount.Mount) (r : error + string)
  | EvUnmount (root : string) (r : option error)
  | EvWriter (ref : string) (desc : ocispec.Descriptor) (r : option error)
  | EvTruncate (ref : string) (size : Z) (r : option error)
  | EvCompressStream (custom : bool) (mediaType : string) (r : option error)
  | EvWriteDiff (lowerRoot upperRoot : string) (raw written : list byte)
      (r : option error)
  | EvCommit (ref : string) (size : Z) (expected : string)
      (opts : option labels) (r : option error)
  | EvClose (ref : string)
  | EvAbort (ref : string) (r : option error)
  | EvWarnf (e : error) (ref : string)
  | EvInfo (dgst : string) (r : error + content.Info)
  | EvUpdate (info : content.Info) (fieldpaths : list string)
      (r : error + content.Info).

(** The packages [Compare] calls into, over a world [W] they act on and a
    type [CW] of writer handles ([content.Writer]).
    - [mount_All]/[mount_UnmountAll]: the two halves of a temporary mount;
    - [store_*]: the methods of [content.Store] the file uses;
    - [cw_*]: the methods of the [content.Writer] it obtained;
    - [archive_WriteDiff lowerRoot upperRoot]: the bytes the diff streamer
      pushed into its writer, and the error it returned;
    - [compression_Gzip]: [compression.CompressStream(cw, compression.Gzip)];
    - [digest_SHA256 raw]: [dgstr.Digest().String()] after [raw] was
      written to [dgstr.Hash()];
    - [time_UnixNano], [rand_Read], [format_ref]: what [uniqueRef] uses,
      [format_ref t b] being
      [fmt.Sprintf("%d-%s", t, base64.URLEncoding.EncodeToString(b))]. *)
Record Env (W CW : Type) : Type := mkEnv {
  mount_All : list mount.Mount → W → (error + string) * W;
  mount_UnmountAll : string → W → option error * W;
  store_Writer : string → ocispec.Descriptor → W → (error + CW) * W;
  store_Abort : string → W → option error * W;
  store_Info : string → W → (error + content.Info) * W;
  store_Update :
    content.Info → list string → W → (error + content.Info) * W;
  cw_Truncate : CW → Z → W → option error * W;
  cw_Write : CW → list byte → W → W;
  cw_Digest : CW → W → string;
  cw_Commit : CW → Z → string → option labels → W → option error * W;
  cw_Close : CW → W → option error * W;
  archive_WriteDiff : string → string → W → (list byte * option error) * W;
  compression_Gzip : error + WriteCloser;
  digest_SHA256 : list byte → string;
  time_UnixNano : W → Z * W;
  rand_Read : nat → W → list byte * W;
  format_ref : Z → list byte → string
}.

Arguments mount_All {W CW} _ _ _.
Arguments mount_UnmountAll {W CW} _ _ _.
Arguments store_Writer {W CW} _ _ _ _.
Arguments store_Abort {W CW} _ _ _.
Arguments store_Info {W CW} _ _ _.
Arguments store_Update {W CW} _ _ _ _.
Arguments cw_Truncate {W CW} _ _ _ _.
Arguments cw_Write {W CW} _ _ _ _.
Arguments cw_Digest {W CW} _ _ _.
Arguments cw_Commit {W CW} _ _ _ _ _ _.
Arguments cw_Close {W CW} _ _ _.
Arguments archive_WriteDiff {W CW} _ _ _ _.
Arguments compression_Gzip {W CW} _.
Arguments digest_SHA256 {W CW} _ _.
Arguments time_UnixNano {W CW} _ _.
Arguments rand_Read {W CW} _ _ _.
Arguments format_ref {W CW} _ _ _.

(** ** A state monad over the world that also collects the trace *)

Definition M (W A : Type) : Type := W → (A * W) * list Event.

Definition ret {W A} (a : A) : M W A := λ w, (a, w, []).

Definition bind {W A B} (m : M W A) (k : A → M W B) : M W B :=
  λ w, let '(a, w1, t1) := m w in
       let '(b, w2, t2) := k a w1 in
       (b, w2, t1 ++ t2).

(** A call on a collaborator, recorded with what it returned. *)
Definition call {W A} (op : W → A * W) (ev : A → Event) : M W A :=
  λ w, let '(a, w') := op w in (a, w', [ev a]).

(** A call whose outcome does not touch the world. *)
Definition emit {W A} (a : A) (ev : Event) : M W A := λ w, (a, w, [ev]).

(** A call that is not recorded. *)
Definition lift {W A} (op : W → A * W) : M W A := λ w, (op w, []).

#[global] Instance M_ret {W} : MRet (M W) := @ret W.
#[global] Instance M_bind {W} : MBind (M W) := λ A B k m, bind m k.

Definition err_of {A} (r : error + A) : option error :=
  match r with inl e => Some e | inr _ => None end.

(** How a run of the closure that owns the writer ends early: the value
    the variable [errOpen] holds at that point, and the error returned. *)
Record Failure : Type := mkFailure {
  errOpen : option error;
  returned : error
}.

(** ** [Compare] and [uniqueRef] (differ.go, lines 81-229) *)

Section Differ.
Context {W CW : Type} (env : Env W CW).

Local Abbreviation M := (M W).

(** [uniqueRef] (lines 223-229); a failure of [rand.Read] is ignored. *)
Definition uniqueRef : M string :=
  t ← lift (time_UnixNano env);
  b ← lift (rand_Read env 3%nat);
  mret (format_ref env t b).

(** Lines 82-87: [for _, opt := range opts { opt(&config) }]. *)
Fixpoint applyOpts (opts : list diff.Opt) (config : diff.Config)
  : error + diff.Config :=
  match opts with
  | [] => inr config
  | opt :: opts' =>
      let '(config', err) := opt config in
      match err with
      | Some e => inl e
      | None => applyOpts opts' config'
      end
  end.

(** Lines 88-93: [for i, m := range upper], writing
    [upper[i].Options] for the overlay mounts. *)
Fixpoint overlay_loop (i : nat) (pending upper : list mount.Mount)
  : list mount.Mount :=
  match pending with
  | [] => upper
  | m :: pending' =>
      let upper' :=
        if String.eqb (mount.Type_ m) "overlay" then
          alter (λ x, mount.set_Options x (readonlyOverlay (mount.Options m)))
                i upper
        else upper in
      overlay_loop (S i) pending' upper'
  end.

Definition rewriteUpper (upper : list mount.Mount) : list mount.Mount :=
  overlay_loop 0 upper upper.

(** Lines 94-112: the effective media type and [isCompressed]. *)
Definition resolveMediaType (config : diff.Config)
  : error + (diff.Config * bool) :=
  match diff.Compressor_ config with
  | Some _ =>
      if String.eqb (diff.MediaType config) "" then
        inl (errors.New
          "media type must be explicitly specified when using custom compressor")
      else inr (config, true)
  | None =>
      let config :=
        if String.eqb (diff.MediaType config) "" then
          diff.set_MediaType config ocispec.MediaTypeImageLayerGzip
        else config in
      if String.eqb (diff.MediaType config) ocispec.MediaTypeImageLayer then
        inr (config, false)
      else if String.eqb (diff.MediaType config)
                ocispec.MediaTypeImageLayerGzip then
        inr (config, true)
      else
        inl (Wrap ErrNotImplemented
               ("unsupported diff media type: " +:+ diff.MediaType config))
  end.

(** Modelled from the spec: [mount.WithTempMount] is not in this file.
    By the mount session contract it mounts the set at a temporary
    location, invokes [f] with that path, and unmounts before it
    returns, also when [f] fails; a failed mount is reported without
    invoking [f].  [t0] and the second component of [f]'s result are
    the variables [f] captures and assigns.  The contract is silent on
    a failing unmount; here it may fail, is reported when [f] succeeded
    and noted on [f]'s error otherwise, so that nothing proved below
    depends on unmounting being infallible. *)
Definition WithTempMount {T} (mounts : list mount.Mount) (t0 : T)
    (f : string → M (option error * T)) : M (option error * T) :=
  r ← call (mount_All env mounts) (EvMount mounts);
  match r with
  | inl uerr => mret (Some (Wrap uerr "failed to mount"), t0)
  | inr root =>
      '(err, t) ← f root;
      uerr ← call (mount_UnmountAll env root) (EvUnmount root);
      mret (match err, uerr with
            | Some e, Some _ => Some (Wrap e "failed to unmount")
            | Some e, None => Some (Wrap e "mount callback failed")
            | None, Some u => Some (Wrap u "failed to unmount")
            | None, None => None
            end, t)
  end.

(** Lines 135-144: the deferred cleanup, run when the closure returns. *)
Definition cleanup (cw : CW) (ref : string) (newReference : bool)
    (errOpen : option error) : M unit :=
  match errOpen with
  | None => mret tt
  | Some _ =>
      _ ← call (cw_Close env cw) (λ _, EvClose ref);
      if newReference then
        abortErr ← call (store_Abort env ref) (EvAbort ref);
        match abortErr with
        | Some ae => emit tt (EvWarnf ae ref)
        | None => mret tt
        end
      else mret tt
  end.

(** [archive.WriteDiff(ctx, dest, lowerRoot, upperRoot)] where [dest]
    passes what it is given through [sink] into the store writer [cw]:
    the bytes the streamer produced and the error it returned. *)
Definition WriteDiff (cw : CW) (sink : WriteCloser)
    (lowerRoot upperRoot : string) : M (list byte * option error) :=
  call (λ w, let '(o, w1) := archive_WriteDiff env lowerRoot upperRoot w in
             (o, cw_Write env cw (sink o.1) w1))
       (λ o, EvWriteDiff lowerRoot upperRoot o.1 (sink o.1) o.2).

(** Lines 151-179: the diff is streamed into the writer; on the
    compressed path through the compressor and, side by side, into the
    SHA-256 digester.  The result is the configuration with the
    uncompressed label recorded. *)
Definition writeStream (cw : CW) (config : diff.Config)
    (isCompressed : bool) (lowerRoot upperRoot : string)
  : M (Failure + diff.Config) :=
  if isCompressed then
    c ← match diff.Compressor_ config with
        | Some compressor =>
            let c := compressor (diff.MediaType config) in
            emit c (EvCompressStream true (diff.MediaType config) (err_of c))
        | None =>
            let c := compression_Gzip env in
            emit c (EvCompressStream false (diff.MediaType config) (err_of c))
        end;
    match c with
    | inl e =>
        mret (inl (mkFailure (Some e)
                     (Wrap e "failed to get compressed stream")))
    | inr compressed =>
        '(raw, errOpen) ← WriteDiff cw compressed lowerRoot upperRoot;
        match errOpen with
        | Some e =>
            mret (inl (mkFailure (Some e)
                         (Wrap e "failed to write compressed diff")))
        | None =>
            mret (inr (diff.set_Labels config
                         (map_assign (diff.Labels config) uncompressed
                            (digest_SHA256 env raw))))
        end
    end
  else
    '(raw, errOpen) ← WriteDiff cw (λ raw, raw) lowerRoot upperRoot;
    match errOpen with
    | Some e => mret (inl (mkFailure (Some e) (Wrap e "failed to write diff")))
    | None => mret (inr config)
    end.

(** Lines 181-192: commit under the writer's digest, with the labels
    when there are any; already-exists clears [errOpen]. *)
Definition commit (cw : CW) (config : diff.Config)
  : M (Failure + string) :=
  let ref := diff.Reference config in
  let commitopts := diff.Labels config in
  dgst ← lift (λ w, (cw_Digest env cw w, w));
  errOpen ← call (cw_Commit env cw 0 dgst commitopts)
                 (EvCommit ref 0 dgst commitopts);
  match errOpen with
  | Some e =>
      if negb (errdefs.IsAlreadyExists e) then
        mret (inl (mkFailure (Some e) (Wrap e "failed to commit")))
      else mret (inr dgst)
  | None => mret (inr dgst)
  end.

(** Lines 198-200:
    [if info.Labels == nil { info.Labels = make(map[string]string) }]. *)
Definition alloc_labels (info : content.Info) : content.Info :=
  match content.Labels info with
  | None => content.set_Labels info (Some ∅)
  | Some _ => info
  end.

(** Lines 194-213: the stored metadata is read back and the
    uncompressed label added when it has none. *)
Definition reconcile (config : diff.Config) (dgst : string)
  : M (Failure + ocispec.Descriptor) :=
  r ← call (store_Info env dgst) (EvInfo dgst);
  match r with
  | inl err =>
      mret (inl (mkFailure None
                   (Wrap err "failed to get info from content store")))
  | inr info =>
      let info := alloc_labels info in
      let ocidesc :=
        ocispec.mkDescriptor (diff.MediaType config)
          (content.Digest info) (content.Size info) in
      match default ∅ (content.Labels info) !! uncompressed with
      | None =>
          let info :=
            content.set_Labels info
              (map_assign (content.Labels info) uncompressed
                 (map_index (diff.Labels config) uncompressed)) in
          u ← call (store_Update env info ["labels." +:+ uncompressed])
                   (EvUpdate info ["labels." +:+ uncompressed]);
          match u with
          | inl err =>
              mret (inl (mkFailure None
                           (Wrap err "error setting uncompressed label")))
          | inr _ => mret (inr ocidesc)
          end
      | Some _ => mret (inr ocidesc)
      end
  end.

(** Lines 145-214: the closure once the writer is open. *)
Definition transact (cw : CW) (config : diff.Config)
    (newReference isCompressed : bool) (lowerRoot upperRoot : string)
  : M (Failure + ocispec.Descriptor) :=
  let ref := diff.Reference config in
  errOpen ← (if negb newReference then
               call (cw_Truncate env cw 0) (EvTruncate ref 0)
             else mret None);
  match errOpen with
  | Some e => mret (inl (mkFailure (Some e) e))
  | None =>
      s ← writeStream cw config isCompressed lowerRoot upperRoot;
      match s with
      | inl f => mret (inl f)
      | inr config =>
          c ← commit cw config;
          match c with
          | inl f => mret (inl f)
          | inr dgst => reconcile config dgst
          end
      end
  end.

(** Lines 116-215: the inner closure; the second component is the
    captured variable [ocidesc] as the closure leaves it. *)
Definition diffClosure (config : diff.Config) (isCompressed : bool)
    (ocidesc : ocispec.Descriptor) (lowerRoot upperRoot : string)
  : M (option error * ocispec.Descriptor) :=
  '(newReference, config) ←
    (if String.eqb (diff.Reference config) "" then
       ref ← uniqueRef;
       mret (true, diff.set_Reference config ref)
     else mret (false, config));
  let ref := diff.Reference config in
  let desc := ocispec.mkDescriptor (diff.MediaType config) "" 0 in
  cw ← call (store_Writer env ref desc) (λ r, EvWriter ref desc (err_of r));
  match cw with
  | inl err => mret (Some (Wrap err "failed to open writer"), ocidesc)
  | inr cw =>
      r ← transact cw config newReference isCompressed lowerRoot upperRoot;
      _ ← cleanup cw ref newReference
            (match r with inl f => errOpen f | inr _ => None end);
      mret (match r with
            | inl f => (Some (returned f), ocidesc)
            | inr d => (None, d)
            end)
  end.

(** What the caller of [Compare] observes: the slice [upper] it passed,
    as the call left it, and the two results. *)
Record Outcome : Type := mkOutcome {
  upper_after : list mount.Mount;
  desc : ocispec.Descriptor;
  err : option error
}.

Definition Compare (lower upper : list mount.Mount) (opts : list diff.Opt)
  : M Outcome :=
  match applyOpts opts diff.zero with
  | inl e => mret (mkOutcome upper emptyDesc (Some e))
  | inr config =>
      let upper := rewriteUpper upper in
      match resolveMediaType config with
      | inl e => mret (mkOutcome upper emptyDesc (Some e))
      | inr (config, isCompressed) =>
          '(err, ocidesc) ←
            WithTempMount lower ocispec.zero (λ lowerRoot,
              WithTempMount upper ocispec.zero (λ upperRoot,
                diffClosure config isCompressed ocispec.zero
                  lowerRoot upperRoot));
          mret (match err with
                | Some e => mkOutcome upper emptyDesc (Some e)
                | None => mkOutcome upper ocidesc None
                end)
      end
  end.

End Differ.

(** ** An in-memory content store, mount table and diff streamer

    A concrete world for running [Compare]: blobs by digest, staged data
    by reference, a list of injected failures and the bytes the diff of
    the two trees consists of. *)

Module mem.

Inductive Op : Type :=
  | OpMount | OpUnmount | OpWriter | OpTruncate | OpWriteDiff
  | OpCommit | OpAbort | OpInfo | OpUpdate.

#[global] Instance Op_eq_dec : EqDecision Op.
Proof. solve_decision. Defined.

Record World : Type := mkWorld {
  blobs : gmap string content.Info;
  staged : gmap string (list byte);
  mounted : list string;
  clock : Z;
  tree_diff : list byte;
  faults : list (Op * error)
}.

Definition fault (op : Op) (w : World) : option error :=
  snd <$> List.find (λ p, bool_decide (p.1 = op)) (faults w).

Definition set_blobs (w : World) (b : gmap string content.Info) : World :=
  mkWorld b (staged w) (mounted w) (clock w) (tree_diff w) (faults w).
Definition set_staged (w : World) (s : gmap string (list byte)) : World :=
  mkWorld (blobs w) s (mounted w) (clock w) (tree_diff w) (faults w).
Definition set_mounted (w : World) (m : list string) : World :=
  mkWorld (blobs w) (staged w) m (clock w) (tree_diff w) (faults w).
Definition set_clock (w : World) (t : Z) : World :=
  mkWorld (blobs w) (staged w) (mounted w) t (tree_diff w) (faults w).

(** The digest of a byte sequence, one-to-one for this store. *)
Definition digest_of (data : list byte) : string :=
  "sha256:" +:+ string_of_list_byte data.

Definition All (ms : list mount.Mount) (w : World)
  : (error + string) * World :=
  match fault OpMount w with
  | Some e => (inl e, w)
  | None =>
      let root :=
        "/tmp/containerd-mount" +:+ pretty (length (mounted w)) in
      (inr root, set_mounted w (root :: mounted w))
  end.

Definition UnmountAll (root : string) (w : World) : option error * World :=
  match fault OpUnmount w with
  | Some e => (Some e, w)
  | None => (None, set_mounted w (List.filter (λ r, negb (String.eqb r root))
                                    (mounted w)))
  end.

(** Modelled from the spec: the blob store contract ([openWriter],
    [truncate], [commit] with the already-exists outcome, [close],
    [abort], [info], [update]); the store itself is outside this file.
    A writer handle is the reference it was opened under; data staged
    under a reference is kept when the writer is reopened. *)
Definition Writer (ref : string) (_ : ocispec.Descriptor) (w : World)
  : (error + string) * World :=
  match fault OpWriter w with
  | Some e => (inl e, w)
  | None =>
      (inr ref, set_staged w (<[ref := default [] (staged w !! ref)]> (staged w)))
  end.

Definition Truncate (cw : string) (size : Z) (w : World)
  : option error * World :=
  match fault OpTruncate w with
  | Some e => (Some e, w)
  | None => (None, set_staged w (<[cw := []]> (staged w)))
  end.

Definition Write (cw : string) (data : list byte) (w : World) : World :=
  set_staged w (<[cw := default [] (staged w !! cw) ++ data]> (staged w)).

Definition Digest (cw : string) (w : World) : string :=
  digest_of (default [] (staged w !! cw)).

Definition Commit (cw : string) (size : Z) (expected : string)
    (opts : option labels) (w : World) : option error * World :=
  match fault OpCommit w with
  | Some e => (Some e, w)
  | None =>
      let data := default [] (staged w !! cw) in
      let w' := set_staged w (delete cw (staged w)) in
      match blobs w !! expected with
      | Some _ => (Some (Wrap ErrAlreadyExists ("content " +:+ expected)), w')
      | None =>
          (None, set_blobs w'
                   (<[expected := content.mkInfo expected
                                    (Z.of_nat (length data)) opts]>
                      (blobs w)))
      end
  end.

Definition Close (cw : string) (w : World) : option error * World :=
  (None, w).

Definition Abort (ref : string) (w : World) : option error * World :=
  match fault OpAbort w with
  | Some e => (Some e, w)
  | None => (None, set_staged w (delete ref (staged w)))
  end.

Definition Info (dgst : string) (w : World)
  : (error + content.Info) * World :=
  match fault OpInfo w with
  | Some e => (inl e, w)
  | None =>
      match blobs w !! dgst with
      | Some i => (inr (content.mkInfo dgst (content.Size i)
                          (content.Labels i)), w)
      | None => (inl (ErrNew ("content " +:+ dgst +:+ ": not found")), w)
      end
  end.

(** The field paths of the form [labels.<key>] are applied, others are
    ignored. *)
Definition apply_path (src : content.Info) (stored : content.Info)
    (path : string) : content.Info :=
  if strings.HasPrefix path "labels." then
    let key := strings.TrimPrefix path "labels." in
    content.set_Labels stored
      (map_assign (content.Labels stored) key
         (map_index (content.Labels src) key))
  else stored.

Definition Update (info : content.Info) (fieldpaths : list string)
    (w : World) : (error + content.Info) * World :=
  match fault OpUpdate w with
  | Some e => (inl e, w)
  | None =>
      match blobs w !! content.Digest info with
      | Some i =>
          let i' := fold_left (apply_path info) fieldpaths i in
          (inr i', set_blobs w (<[content.Digest info := i']> (blobs w)))
      | None =>
          (inl (ErrNew ("content " +:+ content.Digest info +:+ ": not found")),
           w)
      end
  end.

Definition WriteDiff (lowerRoot upperRoot : string) (w : World)
  : (list byte * option error) * World :=
  ((tree_diff w, fault OpWriteDiff w), w).

(** A stand-in for gzip: the raw bytes behind a two-byte header. *)
Definition gzip : WriteCloser := λ raw, x1f :: x8b :: raw.

Definition env : Env World string :=
  mkEnv World string
    All UnmountAll Writer Abort Info Update
    Truncate Write Digest Commit Close WriteDiff
    (inr gzip) digest_of
    (λ w, (clock w, set_clock w (clock w + 1)))
    (λ n w, (repeat x00 n, w))
    (λ t b, pretty t +:+ "-" +:+ string_of_list_byte b).

(** The metadata the store holds for a digest, as [Info] reports it. *)
Definition stored (w : World) (dgst : string) : option content.Info :=
  (λ i, content.mkInfo dgst (content.Size i) (content.Labels i))
    <$> blobs w !! dgst.

(** An empty store, and a diff of two bytes. *)
Definition sample : World := mkWorld ∅ ∅ [] 7 [x61; x62] [].

(** The diff streamer fails, and so does the abort that follows. *)
Definition failing : World :=
  mkWorld ∅ ∅ [] 7 [x61; x62]
    [(OpWriteDiff, ErrNew "unreadable tree"); (OpAbort, ErrNew "busy")].

(** The blob the compressed diff of [sample] produces is already in the
    store: once without labels, once with an uncompressed label that
    some earlier writer set. *)
Definition blob_digest : string := digest_of (gzip [x61; x62]).

Definition existing : World :=
  mkWorld {[ blob_digest := content.mkInfo blob_digest 4 None ]}
    ∅ [] 7 [x61; x62] [].

Definition labelled : World :=
  mkWorld {[ blob_digest :=
               content.mkInfo blob_digest 4
                 (Some {[ uncompressed := "sha256:earlier" ]}) ]}
    ∅ [] 7 [x61; x62] [].

Definition overlay : mount.Mount :=
  mount.mkMount "overlay" "overlay"
    ["upperdir=/a"; "lowerdir=/b:/c"; "workdir=/d"].
Definition bind : mount.Mount :=
  mount.mkMount "bind" "/srv/data" ["rbind"; "workdir=/w"].

Definition lower : list mount.Mount := [bind].
Definition upper : list mount.Mount := [overlay; bind].

(** What a run of [Compare] leaves: the outcome, the world and the
    trace.  The runs below are evaluated once. *)
Definition Run : Type := Outcome * World * list Event.

Definition run_sample : Run :=
  Eval vm_compute in Compare env lower upper [] sample.
Definition run_failing : Run :=
  Eval vm_compute in Compare env lower upper [] failing.
Definition run_existing : Run :=
  Eval vm_compute in Compare env lower upper [] existing.
Definition run_labelled : Run :=
  Eval vm_compute in Compare env lower upper [] labelled.
Definition run_supplied : Run :=
  Eval vm_compute in
    Compare env lower upper [diff.WithReference "layer-1"] sample.

(** The uncompressed diff of [sample] is already in the store, without
    labels, and the caller asks for an uncompressed layer, passing a
    label of its own under the uncompressed key. *)
Definition plain_digest : string := digest_of [x61; x62].

Definition plain_existing : World :=
  mkWorld {[ plain_digest := content.mkInfo plain_digest 2 None ]}
    ∅ [] 7 [x61; x62] [].

Definition caller_opts : list diff.Opt :=
  [diff.WithMediaType ocispec.MediaTypeImageLayer;
   diff.WithLabels {[ uncompressed := "sha256:caller" ]}].

Definition caller_config : diff.Config :=
  diff.mkConfig ocispec.MediaTypeImageLayer ""
    (Some {[ uncompressed := "sha256:caller" ]}) None.

Definition run_caller : Run :=
  Eval vm_compute in Compare env lower upper caller_opts plain_existing.

(** Nothing can be mounted. *)
Definition unmountable : World :=
  mkWorld ∅ ∅ [] 7 [x61; x62] [(OpMount, ErrNew "no such device")].

(** The store refuses to hand out a writer. *)
Definition locked : World :=
  mkWorld ∅ ∅ [] 7 [x61; x62] [(OpWriter, ErrNew "reference locked")].

(** An option that fails. *)
Definition bad_option : diff.Opt := λ c, (c, Some (ErrNew "bad option")).

Definition run_unmountable : Run :=
  Eval vm_compute in Compare env lower upper [] unmountable.
Definition run_locked : Run :=
  Eval vm_compute in Compare env lower upper [] locked.

(** The blob is already in the store, and the store cannot read its
    metadata back. *)
Definition unreadable : World :=
  mkWorld {[ blob_digest := content.mkInfo blob_digest 4 None ]}
    ∅ [] 7 [x61; x62] [(OpInfo, ErrNew "metadata unavailable")].

Definition run_unreadable : Run :=
  Eval vm_compute in Compare env lower upper [] unreadable.

End mem.

(** ** Reading a trace *)

Definition is_truncate (ev : Event) : bool :=
  match ev with EvTruncate _ _ _ => true | _ => false end.
Definition is_update (ev : Event) : bool :=
  match ev with EvUpdate _ _ _ => true | _ => false end.
Definition is_info (ev : Event) : bool :=
  match ev with EvInfo _ _ => true | _ => false end.
Definition is_compress (ev : Event) : bool :=
  match ev with EvCompressStream _ _ _ => true | _ => false end.
Definition is_write (ev : Event) : bool :=
  match ev with EvWriteDiff _ _ _ _ _ => true | _ => false end.
Definition is_cleanup (ev : Event) : bool :=
  match ev with EvClose _ | EvAbort _ _ | EvWarnf _ _ => true | _ => false end.

(** The call succeeded (calls without an outcome always do). *)
Definition ev_ok (ev : Event) : bool :=
  match ev with
  | EvMount _ (inl _) | EvUnmount _ (Some _) | EvWriter _ _ (Some _)
  | EvTruncate _ _ (Some _) | EvCompressStream _ _ (Some _)
  | EvWriteDiff _ _ _ _ (Some _) | EvCommit _ _ _ _ (Some _)
  | EvAbort _ (Some _) | EvInfo _ (inl _) | EvUpdate _ _ (inl _) => false
  | _ => true
  end.

(** The reference the writer was opened under, and the events before
    and after the store handed out the writer. *)
Fixpoint opened (tr : list Event)
  : option (list Event * string * list Event) :=
  match tr with
  | [] => None
  | EvWriter ref _ None :: tr' => Some ([], ref, tr')
  | ev :: tr' =>
      '(before, ref, after) ← opened tr';
      Some (ev :: before, ref, after)
  end.



(** The commit: reference, expected digest, labels, outcome, and the
    events that follow it. *)
Fixpoint commit_of (tr : list Event)
  : option (string * string * option labels * option error * list Event) :=
  match tr with
  | [] => None
  | EvCommit ref _ dgst opts r :: tr' => Some (ref, dgst, opts, r, tr')
  | _ :: tr' => commit_of tr'
  end.

(** The raw bytes of a diff that was streamed without error. *)
Fixpoint raw_of (tr : list Event) : option (list byte) :=
  match tr with
  | [] => None
  | EvWriteDiff _ _ raw _ None :: _ => Some raw
  | _ :: tr' => raw_of tr'
  end.

(** What the store answered when the metadata was read back. *)
Fixpoint info_of (tr : list Event) : option (string * (error + content.Info)) :=
  match tr with
  | [] => None
  | EvInfo dgst r :: _ => Some (dgst, r)
  | _ :: tr' => info_of tr'
  end.

(** The mount sets that were mounted, in order. *)
Fixpoint mounts_of (tr : list Event) : list (list mount.Mount) :=
  match tr with
  | [] => []
  | EvMount ms _ :: tr' => ms :: mounts_of tr'
  | _ :: tr' => mounts_of tr'
  end.


(** ** The overlay rewrite in the words of its contract *)

Definition is_upperdir (o : string) : bool := strings.HasPrefix o "upperdir=".
Definition is_workdir (o : string) : bool := strings.HasPrefix o "workdir=".

(** The entries that survive: neither [upperdir=] nor [workdir=]. *)
Definition kept (o : string) : bool :=
  negb (is_upperdir o) && negb (is_workdir o).

(** The upper directory: the value of the last [upperdir=] entry, empty
    when there is none. *)
Definition upper_value (opt : list string) : string :=
  fold_left
    (λ u o, if is_upperdir o then strings.TrimPrefix o "upperdir=" else u)
    opt "".

(** [upper] put in front of the value of a [lowerdir=] entry. *)
Definition with_upper (upper o : string) : string :=
  if strings.HasPrefix o "lowerdir=" then
    "lowerdir=" +:+ upper +:+ ":" +:+ strings.TrimPrefix o "lowerdir="
  else o.

(** The rewrite applied to the overlay mounts only. *)
Definition overlay_only (m : mount.Mount) : mount.Mount :=
  if String.eqb (mount.Type_ m) "overlay" then
    mount.set_Options m (readonlyOverlay (mount.Options m))
  else m.

(** ** The stored metadata and the store contract *)

(** The metadata with the uncompressed label set to [v]. *)
Definition patched (info : content.Info) (v : string) : content.Info :=
  content.set_Labels info (map_assign (content.Labels info) uncompressed v).

(** The uncompressed label the metadata carries, if any. *)
Definition label_of (info : content.Info) : option string :=
  default ∅ (content.Labels info) !! uncompressed.

(** What [Compare] relies on from the store, in terms of the metadata
    [stored w dgst] that the world [w] holds for the blob [dgst]:
    [Info] reports it and changes nothing, unmounting does not touch it,
    a commit of new content attaches the labels it was given, and an
    update of [labels.<key>] sets that label.  Labels with an empty value
    are left out of the contract, as stores may drop them. *)
Record StoreContract {W CW : Type} (env : Env W CW)
    (stored : W → string → option content.Info) : Prop := {
  Info_reads : ∀ dgst w i w',
    store_Info env dgst w = (inr i, w') →
    stored w dgst = Some i ∧ content.Digest i = dgst ∧
    ∀ d, stored w' d = stored w d;
  Unmount_keeps : ∀ root w r w',
    mount_UnmountAll env root w = (r, w') → ∀ d, stored w' d = stored w d;
  Commit_labels : ∀ cw size dgst L w w',
    cw_Commit env cw size dgst (Some L) w = (None, w') →
    ∃ i, stored w' dgst = Some i ∧
         ∀ k v, L !! k = Some v → v ≠ "" →
                default ∅ (content.Labels i) !! k = Some v;
  Update_label : ∀ info k w i' w',
    store_Update env info ["labels." +:+ k] w = (inr i', w') →
    map_index (content.Labels info) k ≠ "" →
    ∃ i, stored w' (content.Digest info) = Some i ∧
         default ∅ (content.Labels i) !! k
         = Some (map_index (content.Labels info) k);
  SHA256_nonempty : ∀ raw, digest_SHA256 env raw ≠ ""
}.

(** ** Three readings the code does not bear out

    [label_is_computed_digest]: after every successful compressed
    [Compare] the stored label equals the digest this operation computed.
    [patch_requires_computed_digest]: the label is only ever patched in by
    an operation that computed an uncompressed digest, which the code
    does on the compressed path alone.
    [already_exists_always_succeeds]: a commit that reports
    already-exists makes [Compare] return a descriptor of the blob and no
    error. *)

Definition label_is_computed_digest : Prop :=
  ∀ (W CW : Type) (env : Env W CW) (stored : W → string → option content.Info),
    StoreContract env stored →
    ∀ lower upper opts config config' w out w' tr,
      applyOpts opts diff.zero = inr config →
      resolveMediaType config = inr (config', true) →
      Compare env lower upper opts w = (out, w', tr) →
      err out = None →
      ∃ raw ref dgst commitopts cr rest info,
        raw_of tr = Some raw ∧
        commit_of tr = Some (ref, dgst, commitopts, cr, rest) ∧
        stored w' dgst = Some info ∧
        label_of info = Some (digest_SHA256 env raw).

Definition patch_requires_computed_digest : Prop :=
  ∀ (W CW : Type) (env : Env W CW)
    lower upper opts config config' isCompressed w out w' tr,
    applyOpts opts diff.zero = inr config →
    resolveMediaType config = inr (config', isCompressed) →
    Compare env lower upper opts w = (out, w', tr) →
    existsb is_update tr = true →
    isCompressed = true.

Definition already_exists_always_succeeds : Prop :=
  ∀ (W CW : Type) (env : Env W CW)
    lower upper opts config config' isCompressed w out w' tr
    ref dgst commitopts e rest,
    applyOpts opts diff.zero = inr config →
    resolveMediaType config = inr (config', isCompressed) →
    Compare env lower upper opts w = (out, w', tr) →
    commit_of tr = Some (ref, dgst, commitopts, Some e, rest) →
    errdefs.IsAlreadyExists e = true →
    err out = None ∧
    ∃ info, desc out = ocispec.mkDescriptor (diff.MediaType config')
                         (content.Digest info) (content.Size info).

(** ** More ways to read an option list and a trace *)

Definition is_lowerdir (o : string) : bool := strings.HasPrefix o "lowerdir=".

(** A call on the content store or on the writer it handed out. *)
Definition is_store (ev : Event) : bool :=
  match ev with
  | EvWriter _ _ _ | EvTruncate _ _ _ | EvCommit _ _ _ _ _ | EvClose _
  | EvAbort _ _ | EvInfo _ _ | EvUpdate _ _ _ => true
  | _ => false
  end.

Definition is_writer (ev : Event) : bool :=
  match ev with EvWriter _ _ _ => true | _ => false end.
Definition is_commit (ev : Event) : bool :=
  match ev with EvCommit _ _ _ _ _ => true | _ => false end.
Definition is_mount (ev : Event) : bool :=
  match ev with EvMount _ _ => true | _ => false end.

(** The call succeeded, or it is a commit that reported already-exists. *)
Definition ev_passed (ev : Event) : bool :=
  match ev with
  | EvCommit _ _ _ _ (Some e) => errdefs.IsAlreadyExists e
  | _ => ev_ok ev
  end.

(** The first mount that failed: its error and the calls after it. *)
Fixpoint mount_failure (tr : list Event) : option (error * list Event) :=
  match tr with
  | [] => None
  | EvMount _ (inl e) :: tr' => Some (e, tr')
  | _ :: tr' => mount_failure tr'
  end.

(** The roots the successful mounts returned, in order. *)
Fixpoint roots_of (tr : list Event) : list string :=
  match tr with
  | [] => []
  | EvMount _ (inr root) :: tr' => root :: roots_of tr'
  | _ :: tr' => roots_of tr'
  end.

(** The request for a writer: the calls before it, its arguments and
    outcome, and the calls after it. *)
Fixpoint writer_of (tr : list Event)
  : option (list Event * string * ocispec.Descriptor * option error
            * list Event) :=
  match tr with
  | [] => None
  | EvWriter ref d r :: tr' => Some ([], ref, d, r, tr')
  | ev :: tr' =>
      '(before, ref, d, r, after) ← writer_of tr';
      Some (ev :: before, ref, d, r, after)
  end.

(** The streaming of the diff: the two roots, the bytes produced and
    written, and the outcome. *)
Fixpoint diff_of (tr : list Event)
  : option (string * string * list byte * list byte * option error) :=
  match tr with
  | [] => None
  | EvWriteDiff l u raw written r :: _ => Some (l, u, raw, written, r)
  | _ :: tr' => diff_of tr'
  end.


(** The size passed to the commit. *)
Fixpoint commit_size (tr : list Event) : option Z :=
  match tr with
  | [] => None
  | EvCommit _ size _ _ _ :: _ => Some size
  | _ :: tr' => commit_size tr'
  end.

(** The patch of the metadata: what was sent and the outcome. *)
Fixpoint update_of (tr : list Event)
  : option (content.Info * list string * (error + content.Info)) :=
  match tr with
  | [] => None
  | EvUpdate info paths r :: _ => Some (info, paths, r)
  | _ :: tr' => update_of tr'
  end.

(** ** Running [Compare] symbolically *)

Ltac unfold_monad :=
  unfold mbind, mret, M_bind, M_ret, bind, ret, call, emit, lift in *.

(** Case analysis on the outcome of the next call, in program order. *)
Ltac head_destruct t :=
  lazymatch t with
  | match ?x with _ => _ end => head_destruct x
  | (match ?x with _ => _ end) _ => head_destruct x
  | _ => destruct t eqn:?
  end.

Ltac run_step H :=
  cbv beta iota in H;
  lazymatch type of H with
  | (_, _) = (_, _) => fail
  | ?l = _ => head_destruct l
  end.

Ltac run_closure H :=
  unfold WithTempMount, diffClosure, transact, writeStream, WriteDiff,
    commit, reconcile, cleanup, uniqueRef in H;
  unfold_monad; repeat run_step H.

Ltac norm_bools :=
  repeat match goal with
         | H : negb _ = true |- _ => apply negb_true_iff in H
         | H : negb _ = false |- _ => apply negb_false_iff in H
         | H : errdefs.IsAlreadyExists ?e = _,
           H' : context [if errdefs.IsAlreadyExists ?e then _ else _] |- _ =>
             rewrite H in H'
         | H : errdefs.IsAlreadyExists ?e = _
           |- context [if errdefs.IsAlreadyExists ?e then _ else _] =>
             rewrite H
         end.

Ltac tidy := simpl in *; simplify_eq; norm_bools; simpl in *; simplify_eq.

(** Case analysis on the outcomes that only shape the result. *)
Ltac destruct_vars :=
  repeat match goal with
         | |- context [match ?x with _ => _ end] => is_var x; destruct x
         | H : context [match ?x with _ => _ end] |- _ => is_var x; destruct x
         end.

(** ** Properties of [readonlyOverlay] *)

Lemma HasPrefix_app (p x : string) : strings.HasPrefix (p +:+ x) p = true.
Proof.
  induction p as [|c p IH]; simpl; [done|].
  by rewrite Ascii.eqb_refl.
Qed.

Lemma HasPrefix_inv (s p : string) :
  strings.HasPrefix s p = true → s = p +:+ strings.TrimPrefix s p.
Proof.
  intros H. unfold strings.TrimPrefix. rewrite H.
  revert s H. induction p as [|c p IH]; intros s H; simpl in *.
  - by destruct s.
  - destruct s as [|d s]; [done|].
    destruct (Ascii.eqb_spec c d) as [->|]; [|done].
    change (String d s = String d (p +:+ strings.skip (String.length p) s)).
    f_equal. by apply IH.
Qed.

Lemma skip_app (p x : string) : strings.skip (String.length p) (p +:+ x) = x.
Proof. induction p as [|c p IH]; [by destruct x|exact IH]. Qed.

Lemma TrimPrefix_app (p x : string) : strings.TrimPrefix (p +:+ x) p = x.
Proof. unfold strings.TrimPrefix. by rewrite HasPrefix_app, skip_app. Qed.

Local Arguments strings.HasPrefix : simpl never.
Local Arguments strings.TrimPrefix : simpl never.

Lemma scan_spec opt out upper :
  fold_left scan_step opt (out, upper)
  = (out ++ List.filter kept opt,
     fold_left (λ u o, if is_upperdir o then strings.TrimPrefix o "upperdir=" else u) opt upper).
Proof.
  revert out upper. induction opt as [|o opt IH]; intros out upper; simpl.
  - by rewrite app_nil_r.
  - unfold kept, is_upperdir, is_workdir.
    destruct (strings.HasPrefix o "upperdir=") eqn:Hu; simpl.
    + apply IH.
    + destruct (strings.HasPrefix o "workdir=") eqn:Hw; simpl.
      * apply IH.
      * rewrite IH. by rewrite <- app_assoc.
Qed.

Lemma prepend_loop_spec upper seen pending :
  prepend_loop upper (length seen) pending (seen ++ pending)
  = seen ++ map (with_upper upper) pending.
Proof.
  revert seen. induction pending as [|o pending IH]; intros seen; simpl; [done|].
  assert (Hstep : ∀ x, prepend_loop upper (S (length seen)) pending (seen ++ x :: pending)
                       = seen ++ x :: map (with_upper upper) pending).
  { intros x. specialize (IH (seen ++ [x])).
    rewrite length_app, Nat.add_1_r, <- !app_assoc in IH. exact IH. }
  unfold with_upper at 1.
  destruct (strings.HasPrefix o "lowerdir=").
  - rewrite insert_app_r_alt, Nat.sub_diag by lia. apply Hstep.
  - apply Hstep.
Qed.

Lemma readonlyOverlay_spec opt :
  readonlyOverlay opt
  = if String.eqb (upper_value opt) "" then List.filter kept opt
    else map (with_upper (upper_value opt)) (List.filter kept opt).
Proof.
  unfold readonlyOverlay, scan. rewrite scan_spec. simpl.
  fold (upper_value opt).
  destruct (String.eqb (upper_value opt) ""); simpl; [done|].
  apply (prepend_loop_spec _ []).
Qed.

Lemma lowerdir_clean (x : string) :
  is_upperdir ("lowerdir=" +:+ x) = false ∧ is_workdir ("lowerdir=" +:+ x) = false.
Proof. done. Qed.

Lemma with_upper_clean upper o :
  is_upperdir o = false → is_workdir o = false →
  is_upperdir (with_upper upper o) = false ∧
  is_workdir (with_upper upper o) = false.
Proof.
  intros Hu Hw. unfold with_upper.
  destruct (strings.HasPrefix o "lowerdir="); [apply lowerdir_clean|done].
Qed.

Lemma kept_clean o : kept o = true → is_upperdir o = false ∧ is_workdir o = false.
Proof.
  unfold kept. intros [Hu Hw]%andb_true_iff.
  by apply negb_true_iff in Hu, Hw.
Qed.

Lemma readonlyOverlay_clean opt o :
  o ∈ readonlyOverlay opt → is_upperdir o = false ∧ is_workdir o = false.
Proof.
  rewrite readonlyOverlay_spec.
  assert (Hk : ∀ x, x ∈ List.filter kept opt → is_upperdir x = false ∧ is_workdir x = false).
  { intros x Hx. apply list_elem_of_In, filter_In in Hx. apply kept_clean, Hx. }
  destruct (String.eqb (upper_value opt) ""); [apply Hk|].
  intros (x & -> & Hx)%list_elem_of_fmap.
  destruct (Hk x Hx). by apply with_upper_clean.
Qed.

Lemma filter_kept_clean opt :
  (∀ o, o ∈ opt → is_upperdir o = false ∧ is_workdir o = false) →
  List.filter kept opt = opt.
Proof.
  induction opt as [|o opt IH]; intros Hc; [done|]. simpl.
  destruct (Hc o) as [Hu Hw]; [left|].
  unfold kept. rewrite Hu, Hw. simpl. f_equal.
  apply IH. intros x Hx. apply Hc. by right.
Qed.

Lemma upper_fold_clean opt u :
  (∀ o, o ∈ opt → is_upperdir o = false ∧ is_workdir o = false) →
  fold_left (λ u o, if is_upperdir o then strings.TrimPrefix o "upperdir=" else u)
    opt u = u.
Proof.
  revert u. induction opt as [|o opt IH]; intros u Hc; [done|]. simpl.
  destruct (Hc o) as [-> _]; [left|].
  apply IH. intros x Hx. apply Hc. by right.
Qed.

Lemma readonlyOverlay_fixed opt :
  (∀ o, o ∈ opt → is_upperdir o = false ∧ is_workdir o = false) →
  readonlyOverlay opt = opt.
Proof.
  intros Hc. rewrite readonlyOverlay_spec.
  unfold upper_value. by rewrite upper_fold_clean, filter_kept_clean.
Qed.

Lemma upper_value_unique opt a u :
  (∀ o, o ∈ opt → is_upperdir o = true → o = "upperdir=" +:+ a) →
  u = a ∨ "upperdir=" +:+ a ∈ opt →
  fold_left (λ u o, if is_upperdir o then strings.TrimPrefix o "upperdir=" else u) opt u = a.
Proof.
  revert u. induction opt as [|o opt IH]; intros u Hall Hin; simpl.
  - destruct Hin as [|Hin]; [done|]. by apply elem_of_nil in Hin.
  - apply IH; [intros x Hx; apply Hall; by right|].
    destruct (is_upperdir o) eqn:Hu.
    + left. rewrite (Hall o) by (done || left). apply TrimPrefix_app.
    + destruct Hin as [|Hin]; [by left|].
      apply elem_of_cons in Hin as [<-|]; [|by right].
      unfold is_upperdir in Hu. by rewrite HasPrefix_app in Hu.
Qed.

Lemma lowerdir_prepended opt a l :
  a ≠ "" →
  "upperdir=" +:+ a ∈ opt →
  (∀ o, o ∈ opt → is_upperdir o = true → o = "upperdir=" +:+ a) →
  "lowerdir=" +:+ l ∈ opt →
  "lowerdir=" +:+ a +:+ ":" +:+ l ∈ readonlyOverlay opt.
Proof.
  intros Ha Hin Hall Hl. rewrite readonlyOverlay_spec.
  unfold upper_value. rewrite (upper_value_unique opt a "") by auto.
  destruct (String.eqb_spec a ""); [done|].
  apply list_elem_of_fmap. exists ("lowerdir=" +:+ l). split.
  - unfold with_upper. by rewrite HasPrefix_app, TrimPrefix_app.
  - apply list_elem_of_In, filter_In. split; [by apply list_elem_of_In|].
    unfold kept. by destruct (lowerdir_clean l) as [-> ->].
Qed.

Lemma overlay_loop_spec seen pending :
  overlay_loop (length seen) pending (seen ++ pending)
  = seen ++ map overlay_only pending.
Proof.
  revert seen. induction pending as [|m pending IH]; intros seen; simpl; [done|].
  assert (Hstep : ∀ x, overlay_loop (S (length seen)) pending (seen ++ x :: pending)
                       = seen ++ x :: map overlay_only pending).
  { intros x. specialize (IH (seen ++ [x])).
    rewrite length_app, Nat.add_1_r, <- !app_assoc in IH. exact IH. }
  unfold overlay_only at 1.
  destruct (String.eqb (mount.Type_ m) "overlay").
  - rewrite alter_app_r_alt, Nat.sub_diag by lia. apply Hstep.
  - apply Hstep.
Qed.

Lemma rewriteUpper_spec upper : rewriteUpper upper = map overlay_only upper.
Proof. apply (overlay_loop_spec []). Qed.

(** C10.  The overlay rewrite is idempotent on every option list: its
    output holds no [upperdir=] and no [workdir=] entry, so that a second
    application returns the output of the first unchanged. *)
Theorem readonlyOverlay_idempotent (opt : list string) :
  (∀ o, o ∈ readonlyOverlay opt → is_upperdir o = false ∧ is_workdir o = false)
  ∧ readonlyOverlay (readonlyOverlay opt) = readonlyOverlay opt.
Proof.
  split; [apply readonlyOverlay_clean|].
  apply readonlyOverlay_fixed, readonlyOverlay_clean.
Qed.

(** ** Facts about the pieces of [Compare] *)

Lemma map_index_assign (m : option labels) (k v : string) :
  map_index (map_assign m k v) k = v.
Proof. unfold map_index, map_assign. simpl. by rewrite lookup_insert_eq. Qed.

Lemma resolve_Reference config config' b :
  resolveMediaType config = inr (config', b) →
  diff.Reference config' = diff.Reference config.
Proof. unfold resolveMediaType. intros H. repeat case_match; by simplify_eq. Qed.

Lemma resolve_Labels config config' b :
  resolveMediaType config = inr (config', b) →
  diff.Labels config' = diff.Labels config.
Proof. unfold resolveMediaType. intros H. repeat case_match; by simplify_eq. Qed.

Lemma alloc_Digest i : content.Digest (alloc_labels i) = content.Digest i.
Proof. unfold alloc_labels. by destruct (content.Labels i). Qed.

Lemma alloc_Size i : content.Size (alloc_labels i) = content.Size i.
Proof. unfold alloc_labels. by destruct (content.Labels i). Qed.

Lemma alloc_label i :
  default ∅ (content.Labels (alloc_labels i)) !! uncompressed = label_of i.
Proof.
  unfold alloc_labels, label_of.
  destruct (content.Labels i) eqn:E; simpl; by rewrite ?E.
Qed.

Lemma alloc_patched i v :
  content.set_Labels (alloc_labels i)
    (map_assign (content.Labels (alloc_labels i)) uncompressed v)
  = patched i v.
Proof.
  unfold alloc_labels, patched.
  destruct (content.Labels i) eqn:E; simpl; by rewrite ?E.
Qed.

(** [Compare] past the configuration: two cases remain, the media type
    is refused or the mounts are taken. *)
Ltac run_Compare Hopts Hrun Hres :=
  unfold Compare in Hrun; rewrite Hopts in Hrun;
  lazymatch type of Hrun with
  | context [resolveMediaType ?config] =>
      destruct (resolveMediaType config) as [?|[? ?]] eqn:Hres;
      [ unfold_monad; simplify_eq
      | pose proof (resolve_Reference _ _ _ Hres);
        pose proof (resolve_Labels _ _ _ Hres);
        run_closure Hrun; simplify_eq;
        rewrite ?alloc_Digest, ?alloc_Size, ?alloc_label, ?alloc_patched,
          ?map_index_assign in * ]
  end.

(** ** Properties of [Compare] *)

Section Compare_properties.
Context {W CW : Type} (env : Env W CW).
Implicit Types (lower upper : list mount.Mount) (opts : list diff.Opt).
Implicit Types (config : diff.Config) (w : W) (tr : list Event).

(** The slice [upper] as [Compare] leaves it, and the mount sets it
    mounts: [lower] first, then the rewritten [upper]. *)
Lemma Compare_mounts lower upper opts w out w' tr :
  Compare env lower upper opts w = (out, w', tr) →
  upper_after out
  = match applyOpts opts diff.zero with
    | inl _ => upper
    | inr _ => map overlay_only upper
    end ∧
  mounts_of tr
  = take (length (mounts_of tr)) [lower; map overlay_only upper].
Proof.
  intros Hrun. rewrite <- rewriteUpper_spec.
  destruct (applyOpts opts diff.zero) as [e|config] eqn:Hopts.
  { unfold Compare in Hrun. rewrite Hopts in Hrun.
    unfold_monad. by simplify_eq. }
  run_Compare Hopts Hrun Hres.
  all: destruct_vars; by simplify_eq.
Qed.

(** The effective media type is the one of the descriptor returned, and
    the diff goes through a compressor exactly when [isCompressed]. *)
Lemma Compare_uses_resolution lower upper opts config config' isCompressed
    w out w' tr :
  applyOpts opts diff.zero = inr config →
  resolveMediaType config = inr (config', isCompressed) →
  Compare env lower upper opts w = (out, w', tr) →
  (err out = None →
   ocispec.MediaType (desc out) = diff.MediaType config') ∧
  (existsb is_write tr = true → existsb is_compress tr = isCompressed).
Proof.
  intros Hopts Hres0 Hrun.
  run_Compare Hopts Hrun Hres.
  all: tidy.
  all: destruct_vars; by simplify_eq.
Qed.

End Compare_properties.

(** C5.  The overlay rewrite keeps the entries that are neither
    [upperdir=] nor [workdir=], in their order, and, when there is an
    upper directory (the value of the [upperdir=] entry, which the code
    takes as present when it is not empty), puts it in front of the value
    of every [lowerdir=] entry, separated by [:].  Options with
    [upperdir=/a], [lowerdir=/b:/c] and [workdir=/d] come out with
    [lowerdir=/a:/b:/c] and without a [workdir=] entry.  [Compare]
    rewrites the options of the mounts of type [overlay] in [upper] and
    leaves every other mount as it is. *)
Theorem readonlyOverlay_rewrite :
  (∀ opt,
     readonlyOverlay opt
     = if String.eqb (upper_value opt) "" then List.filter kept opt
       else map (with_upper (upper_value opt)) (List.filter kept opt))
  ∧ (∀ opt o, o ∈ readonlyOverlay opt →
              is_upperdir o = false ∧ is_workdir o = false)
  ∧ (∀ opt a l,
       a ≠ "" →
       "upperdir=" +:+ a ∈ opt →
       (∀ o, o ∈ opt → is_upperdir o = true → o = "upperdir=" +:+ a) →
       "lowerdir=" +:+ l ∈ opt →
       "lowerdir=" +:+ a +:+ ":" +:+ l ∈ readonlyOverlay opt)
  ∧ readonlyOverlay ["upperdir=/a"; "lowerdir=/b:/c"; "workdir=/d"]
    = ["lowerdir=/a:/b:/c"]
  ∧ (∀ m, mount.Type_ m ≠ "overlay" → overlay_only m = m)
  ∧ (∀ m, mount.Type_ m = "overlay" →
          overlay_only m
          = mount.set_Options m (readonlyOverlay (mount.Options m)))
  ∧ (∀ (W CW : Type) (env : Env W CW) lower upper opts w out w' tr,
       Compare env lower upper opts w = (out, w', tr) →
       upper_after out
       = match applyOpts opts diff.zero with
         | inl _ => upper
         | inr _ => map overlay_only upper
         end ∧
       mounts_of tr
       = take (length (mounts_of tr)) [lower; map overlay_only upper]).
Proof.
  split; [exact readonlyOverlay_spec|].
  split; [exact readonlyOverlay_clean|].
  split; [exact lowerdir_prepended|].
  split; [reflexivity|].
  split.
  { intros m Hm. unfold overlay_only.
    by destruct (String.eqb_spec (mount.Type_ m) "overlay"). }
  split.
  { intros m Hm. unfold overlay_only. by rewrite Hm. }
  intros W CW env. apply Compare_mounts.
Qed.

Section Compare_claims.
Context {W CW : Type} (env : Env W CW).
Implicit Types (lower upper : list mount.Mount) (opts : list diff.Opt).
Implicit Types (config : diff.Config) (w : W) (tr : list Event).

(** C9.  Whenever [Compare] returns an error, whatever stage it comes
  from, the descriptor it returns with it is the empty descriptor. *)
Theorem Compare_error_empty_descriptor lower upper opts w out w' tr :
Compare env lower upper opts w = (out, w', tr) →
err out ≠ None →
desc out = emptyDesc.
Proof.
unfold Compare. intros Hrun Herr.
destruct (applyOpts opts diff.zero) as [e|config].
{ unfold_monad. by simplify_eq. }
destruct (resolveMediaType config) as [e|[config' isC]].
{ unfold_monad. by simplify_eq. }
unfold_monad.
destruct (WithTempMount _ _ _ _ _) as [[[e ocidesc] w1] t1].
destruct e; by simplify_eq.
Qed.

(** C6.  When the options resolve to a configuration with a custom
  compressor and an empty media type, [Compare] fails with the
  configuration error, and it has made no call on the mounts or the
  store by then: the trace is empty and the world untouched. *)
Theorem Compare_compressor_requires_media_type
  lower upper opts config compressor w :
applyOpts opts diff.zero = inr config →
diff.Compressor_ config = Some compressor →
diff.MediaType config = "" →
Compare env lower upper opts w
= (mkOutcome (rewriteUpper upper) emptyDesc
     (Some (errors.New
        "media type must be explicitly specified when using custom compressor")),
   w, []).
Proof.
intros Hopts Hc Hmt. unfold Compare, resolveMediaType.
by rewrite Hopts, Hc, Hmt.
Qed.

(** C7.  Without a custom compressor: an empty media type becomes the
  gzip layer media type with compression on; the plain layer media type
  turns compression off; the gzip layer media type turns it on; any
  other media type makes [Compare] fail with an error whose cause is
  [ErrNotImplemented], before any call on the mounts or the store.
  The media type resolved is the one of the descriptor returned, and
  the diff is compressed exactly when compression is on. *)
Theorem Compare_media_type_resolution config :
diff.Compressor_ config = None →
(diff.MediaType config = "" →
 resolveMediaType config
 = inr (diff.set_MediaType config ocispec.MediaTypeImageLayerGzip, true))
∧ (diff.MediaType config = ocispec.MediaTypeImageLayer →
   resolveMediaType config = inr (config, false))
∧ (diff.MediaType config = ocispec.MediaTypeImageLayerGzip →
   resolveMediaType config = inr (config, true))
∧ (diff.MediaType config ≠ "" →
   diff.MediaType config ≠ ocispec.MediaTypeImageLayer →
   diff.MediaType config ≠ ocispec.MediaTypeImageLayerGzip →
   ∃ e, errors.Cause e = ErrNotImplemented ∧
        resolveMediaType config = inl e ∧
        ∀ lower upper opts w,
          applyOpts opts diff.zero = inr config →
          Compare env lower upper opts w
          = (mkOutcome (rewriteUpper upper) emptyDesc (Some e), w, []))
∧ (∀ lower upper opts config' isCompressed w out w' tr,
     applyOpts opts diff.zero = inr config →
     resolveMediaType config = inr (config', isCompressed) →
     Compare env lower upper opts w = (out, w', tr) →
     (err out = None →
      ocispec.MediaType (desc out) = diff.MediaType config') ∧
     (existsb is_write tr = true →
      existsb is_compress tr = isCompressed)).
Proof.
intros Hc. repeat apply conj.
5: { intros. eapply Compare_uses_resolution; eassumption. }
all: unfold resolveMediaType; rewrite Hc.
- intros ->. reflexivity.
- intros E. rewrite E.
  replace (ocispec.MediaTypeImageLayer =? "")%string with false
    by reflexivity.
  cbv beta iota zeta. by rewrite E, String.eqb_refl.
- intros E. rewrite E.
  replace (ocispec.MediaTypeImageLayerGzip =? "")%string with false
    by reflexivity.
  cbv beta iota zeta. rewrite E.
  replace (ocispec.MediaTypeImageLayerGzip
           =? ocispec.MediaTypeImageLayer)%string with false
    by reflexivity.
  by rewrite String.eqb_refl.
- intros H0 H1 H2.
  destruct (String.eqb_spec (diff.MediaType config) ""); [done|].
  destruct (String.eqb_spec (diff.MediaType config)
              ocispec.MediaTypeImageLayer); [done|].
  destruct (String.eqb_spec (diff.MediaType config)
              ocispec.MediaTypeImageLayerGzip); [done|].
  eexists. split; [|split; [reflexivity|]]; [done|].
  intros lower upper opts w Hopts. unfold Compare, resolveMediaType.
  rewrite Hopts, Hc.
  destruct (String.eqb_spec (diff.MediaType config) ""); [done|].
  destruct (String.eqb_spec (diff.MediaType config)
              ocispec.MediaTypeImageLayer); [done|].
  by destruct (String.eqb_spec (diff.MediaType config)
                 ocispec.MediaTypeImageLayerGzip).
Qed.



(** C3, as the code has it.  When the commit fails because the content
    already exists, [Compare] drops the error: no cleanup runs and the
    metadata of the blob is read back under the committed digest.  When
    every call that follows succeeds (that read, the label update if one
    is made, releasing the two mounts), a descriptor of the pre-existing
    blob is returned with no error; when one of them fails, [Compare]
    fails and returns the empty descriptor.  Any other commit error makes
    [Compare] fail with that error as the cause, without reading the
    metadata. *)
Theorem Compare_commit_already_exists
    lower upper opts config config' isCompressed w out w' tr
    ref dgst commitopts e rest :
  applyOpts opts diff.zero = inr config →
  resolveMediaType config = inr (config', isCompressed) →
  Compare env lower upper opts w = (out, w', tr) →
  commit_of tr = Some (ref, dgst, commitopts, Some e, rest) →
  if errdefs.IsAlreadyExists e then
    existsb is_cleanup tr = false ∧
    ∃ r rest',
      rest = EvInfo dgst r :: rest' ∧
      (forallb ev_ok rest = true →
       ∃ info,
         r = inr info ∧ err out = None ∧
         desc out = ocispec.mkDescriptor (diff.MediaType config')
                      (content.Digest info) (content.Size info)) ∧
      (forallb ev_ok rest = false →
       desc out = emptyDesc ∧ err out ≠ None)
  else
    existsb is_info tr = false ∧
    desc out = emptyDesc ∧
    ∃ e', err out = Some e' ∧ errors.Cause e' = errors.Cause e.
Proof.
  intros Hopts Hres0 Hrun Hcommit.
  run_Compare Hopts Hrun Hres.
  all: tidy.
  all: destruct_vars; simplify_eq.
  all: repeat split; eauto.
  all: try (eexists _, _; split; [reflexivity|]; split; intros ?;
            first [done | by eexists | by split]).
Qed.

(** C2, as the code has it.  After a commit that succeeded or reported
  already-exists, [Compare] reads the metadata of the blob back under
  the committed digest, and not otherwise.  It patches the uncompressed
  label in exactly when that metadata lacks it, on the compressed and
  on the uncompressed path alike: one update of the field
  [labels.containerd.io/uncompressed] whose value is the digest computed
  on the compressed path and, on the uncompressed path, whatever the
  configured labels hold under that key (empty when nothing).  When the
  metadata has the label, no update is made, so that a value already
  there is never overwritten. *)
Theorem Compare_label_reconciliation
  lower upper opts config config' isCompressed w out w' tr :
applyOpts opts diff.zero = inr config →
resolveMediaType config = inr (config', isCompressed) →
Compare env lower upper opts w = (out, w', tr) →
match commit_of tr with
| Some (ref, dgst, commitopts, Some e, rest) =>
    if errdefs.IsAlreadyExists e then
      ∃ r rest', rest = EvInfo dgst r :: rest' ∧ info_of tr = Some (dgst, r)
    else info_of tr = None
| Some (ref, dgst, commitopts, None, rest) =>
    ∃ r rest', rest = EvInfo dgst r :: rest' ∧ info_of tr = Some (dgst, r)
| None => info_of tr = None
end ∧
match info_of tr with
| Some (dgst, inr info) =>
    match label_of info with
    | Some _ => existsb is_update tr = false
    | None =>
        ∃ u, List.filter is_update tr =
             [EvUpdate
                (patched info
                   (if isCompressed then
                      digest_SHA256 env (default [] (raw_of tr))
                    else map_index (diff.Labels config) uncompressed))
                ["labels." +:+ uncompressed] u]
    end
| _ => existsb is_update tr = false
end.
Proof.
intros Hopts Hres0 Hrun.
run_Compare Hopts Hrun Hres.
all: tidy; rewrite ?map_index_assign in *.
all: try done.
all: repeat match goal with
       | H : label_of _ = _ |- _ => rewrite H
       | H : diff.Labels _ = diff.Labels _ |- _ => rewrite H
       end.
all: split; eauto.
Qed.

End Compare_claims.

Section Compare_store_contract.
Context {W CW : Type} (env : Env W CW).
Context (stored : W → string → option content.Info).
Context (contract : StoreContract env stored).
Implicit Types (lower upper : list mount.Mount) (opts : list diff.Opt).
Implicit Types (config : diff.Config) (w : W) (tr : list Event).

(** The label the blob carries once the metadata has been read back,
    patched if need be, and the mounts released: the value read back
    when there was one, which a commit of new content has made [v0], and
    [v0] when there was none. *)
Lemma label_settled cw size dgst L cr v0 i w6 w7 w8 w9 w10 w'
    upperRoot lowerRoot u1 u2 :
  cw_Commit env cw size dgst (Some L) w6 = (cr, w7) →
  L !! uncompressed = Some v0 → v0 ≠ "" →
  store_Info env dgst w7 = (inr i, w8) →
  match label_of i with
  | Some _ => w9 = w8
  | None => ∃ u, store_Update env (patched i v0)
                   ["labels." +:+ uncompressed] w8 = (inr u, w9)
  end →
  mount_UnmountAll env upperRoot w9 = (u1, w10) →
  mount_UnmountAll env lowerRoot w10 = (u2, w') →
  ∃ info v,
    stored w' dgst = Some info ∧ label_of info = Some v ∧
    match label_of i with
    | Some kept => v = kept ∧ (cr = None → kept = v0)
    | None => v = v0
    end.
Proof.
  intros Hcommit HL Hv0 Hinfo Hrec Hu1 Hu2.
  rewrite (Unmount_keeps _ _ contract _ _ _ _ Hu2).
  rewrite (Unmount_keeps _ _ contract _ _ _ _ Hu1).
  destruct (Info_reads _ _ contract _ _ _ _ Hinfo) as (Hst & Hd & Hkeep).
  destruct (label_of i) as [s|] eqn:Hl.
  - subst w9. rewrite Hkeep. exists i, s. split; [done|]. split; [done|].
    split; [done|]. intros ->.
    destruct (Commit_labels _ _ contract _ _ _ _ _ _ Hcommit)
      as (i' & Hi' & Hlab).
    rewrite Hst in Hi'. simplify_eq.
    specialize (Hlab _ _ HL Hv0). unfold label_of in Hl. congruence.
  - destruct Hrec as [u Hupd].
    destruct (Update_label _ _ contract _ _ _ _ _ Hupd) as (i' & Hi' & Hlab).
    { unfold patched. simpl. by rewrite map_index_assign. }
    unfold patched in Hi', Hlab. simpl in Hi', Hlab.
    rewrite map_index_assign in Hlab. rewrite Hd in Hi'.
    exists i', v0. auto.
Qed.

(** C1, as the code has it.  After every successful [Compare] on the
    compressed path the commit was issued with the uncompressed label set
    to the SHA-256 digest of the raw diff bytes, and the metadata the
    store holds for the blob carries the uncompressed label.  When the
    metadata read back after the commit lacked the label, it has been
    patched in and its value is that digest.  When the metadata read back
    had the label, its value is kept as it was read: that is the digest
    when the commit stored new content (the label was set at commit
    time), and whatever the blob had when the commit reported
    already-exists. *)
Theorem Compare_uncompressed_label
    lower upper opts config config' w out w' tr :
  applyOpts opts diff.zero = inr config →
  resolveMediaType config = inr (config', true) →
  Compare env lower upper opts w = (out, w', tr) →
  err out = None →
  ∃ raw ref dgst L cr rest i0 info v,
    raw_of tr = Some raw ∧
    commit_of tr = Some (ref, dgst, Some L, cr, rest) ∧
    L !! uncompressed = Some (digest_SHA256 env raw) ∧
    info_of tr = Some (dgst, inr i0) ∧
    stored w' dgst = Some info ∧
    label_of info = Some v ∧
    match label_of i0 with
    | Some kept => v = kept ∧ (cr = None → kept = digest_SHA256 env raw)
    | None => v = digest_SHA256 env raw
    end.
Proof.
  intros Hopts Hres0 Hrun Herr.
  run_Compare Hopts Hrun Hres.
  all: tidy; rewrite ?map_index_assign in *.
  all: destruct_vars; simplify_eq.
  all: match goal with
       | Hc : cw_Commit _ _ _ _ _ _ = _, Hi : store_Info _ _ _ = _,
         Hl : label_of _ = _,
         Hu1 : mount_UnmountAll _ _ _ = _,
         Hu2 : mount_UnmountAll _ _ ?w10 = _ |- _ =>
           edestruct label_settled as (info & v & Hst & Hlab & Hv);
           [ exact Hc | apply lookup_insert_eq
           | apply (SHA256_nonempty _ _ contract) | exact Hi
           | rewrite Hl; first [reflexivity | eexists; eassumption]
           | exact Hu1 | exact Hu2 | ]
       end.
  all: eexists _, _, _, _, _, _, _, info, v.
  all: split; [reflexivity|].
  all: split; [reflexivity|].
  all: split; [apply lookup_insert_eq|].
  all: split; [reflexivity|].
  all: split; [exact Hst|].
  all: split; [exact Hlab|].
  all: exact Hv.
Qed.

End Compare_store_contract.

(** ** The in-memory store honours the contract *)

Lemma mem_contract : StoreContract mem.env mem.stored.
Proof.
  split.
  - intros dgst w i w'. simpl. unfold mem.Info, mem.stored.
    destruct (mem.fault mem.OpInfo w); [done|].
    destruct (mem.blobs w !! dgst) as [i0|]; [|done].
    intros; by simplify_eq.
  - intros root w r w'. simpl. unfold mem.UnmountAll, mem.stored.
    destruct (mem.fault mem.OpUnmount w); intros; by simplify_eq.
  - intros cw size dgst L w w'. simpl. unfold mem.Commit, mem.stored.
    destruct (mem.fault mem.OpCommit w); [done|].
    destruct (mem.blobs w !! dgst); [done|].
    intros; simplify_eq. simpl. rewrite lookup_insert_eq. simpl.
    eexists. split; [done|]. by intros.
  - intros info k w i' w'. simpl. unfold mem.Update, mem.stored.
    destruct (mem.fault mem.OpUpdate w); [done|].
    destruct (mem.blobs w !! content.Digest info) as [i0|]; [|done].
    intros; simplify_eq. simpl. rewrite lookup_insert_eq. simpl.
    eexists. split; [done|]. simpl. unfold mem.apply_path.
    rewrite ?HasPrefix_app, ?TrimPrefix_app. simpl.
    rewrite ?TrimPrefix_app. by rewrite lookup_insert_eq.
  - intros raw. done.
Qed.

(** ** The properties at concrete runs *)

Lemma Compare_compressor_requires_media_type_witness :
  Compare mem.env mem.lower mem.upper
    [diff.WithCompressor (λ _, inr mem.gzip)] mem.sample
  = (mkOutcome (rewriteUpper [mem.overlay; mem.bind]) emptyDesc
       (Some (errors.New
          "media type must be explicitly specified when using custom compressor")),
     mem.sample, []).
Proof.
  exact (Compare_compressor_requires_media_type mem.env
           mem.lower mem.upper
           [diff.WithCompressor (λ _, inr mem.gzip)]
           (diff.set_Compressor diff.zero (Some (λ _, inr mem.gzip)))
           (λ _, inr mem.gzip) mem.sample eq_refl eq_refl eq_refl).
Defined.

Lemma Compare_media_type_resolution_witness :
  resolveMediaType diff.zero
  = inr (diff.set_MediaType diff.zero ocispec.MediaTypeImageLayerGzip, true).
Proof.
  exact (proj1 (Compare_media_type_resolution mem.env diff.zero eq_refl)
           eq_refl).
Defined.

Lemma readonlyOverlay_rewrite_witness :
  "lowerdir=/a:/b:/c" ∈ readonlyOverlay (mount.Options mem.overlay).
Proof.
  apply (proj1 (proj2 (proj2 readonlyOverlay_rewrite))
           (mount.Options mem.overlay) "/a" "/b:/c").
  - vm_compute. discriminate.
  - vm_compute. left.
  - intros o Ho Hu. apply list_elem_of_In in Ho.
    destruct Ho as [<-|[<-|[<-|[]]]];
      [reflexivity|vm_compute in Hu; discriminate..].
  - vm_compute. right. left.
Defined.

Lemma readonlyOverlay_idempotent_witness :
  readonlyOverlay (readonlyOverlay (mount.Options mem.overlay))
  = readonlyOverlay (mount.Options mem.overlay).
Proof.
  exact (proj2 (readonlyOverlay_idempotent (mount.Options mem.overlay))).
Defined.

Lemma run_sample_eq :
  Compare mem.env mem.lower mem.upper [] mem.sample
  = (mem.run_sample.1.1, mem.run_sample.1.2, mem.run_sample.2).
Proof. vm_compute. reflexivity. Qed.

Lemma run_failing_eq :
  Compare mem.env mem.lower mem.upper [] mem.failing
  = (mem.run_failing.1.1, mem.run_failing.1.2, mem.run_failing.2).
Proof. vm_compute. reflexivity. Qed.

Lemma run_existing_eq :
  Compare mem.env mem.lower mem.upper [] mem.existing
  = (mem.run_existing.1.1, mem.run_existing.1.2, mem.run_existing.2).
Proof. vm_compute. reflexivity. Qed.

Lemma run_unreadable_eq :
  Compare mem.env mem.lower mem.upper [] mem.unreadable
  = (mem.run_unreadable.1.1, mem.run_unreadable.1.2, mem.run_unreadable.2).
Proof. vm_compute. reflexivity. Qed.

Lemma run_labelled_eq :
  Compare mem.env mem.lower mem.upper [] mem.labelled
  = (mem.run_labelled.1.1, mem.run_labelled.1.2, mem.run_labelled.2).
Proof. vm_compute. reflexivity. Qed.

Lemma run_supplied_eq :
  Compare mem.env mem.lower mem.upper [diff.WithReference "layer-1"] mem.sample
  = (mem.run_supplied.1.1, mem.run_supplied.1.2, mem.run_supplied.2).
Proof. vm_compute. reflexivity. Qed.

Lemma run_caller_eq :
  Compare mem.env mem.lower mem.upper mem.caller_opts mem.plain_existing
  = (mem.run_caller.1.1, mem.run_caller.1.2, mem.run_caller.2).
Proof. vm_compute. reflexivity. Qed.

Lemma Compare_error_empty_descriptor_witness :
  err mem.run_failing.1.1 ≠ None ∧ desc mem.run_failing.1.1 = emptyDesc.
Proof.
  assert (H : err mem.run_failing.1.1 ≠ None) by (vm_compute; discriminate).
  split; [exact H|].
  exact (Compare_error_empty_descriptor mem.env mem.lower mem.upper []
           mem.failing _ _ _ run_failing_eq H).
Defined.



Lemma Compare_commit_already_exists_witness :
  ∃ ref dgst commitopts rest,
    commit_of mem.run_existing.2
    = Some (ref, dgst, commitopts,
            Some (Wrap ErrAlreadyExists ("content " +:+ mem.blob_digest)),
            rest) ∧
    forallb ev_ok rest = true ∧
    existsb is_cleanup mem.run_existing.2 = false ∧
    ∃ info,
      info_of mem.run_existing.2 = Some (dgst, inr info) ∧
      err mem.run_existing.1.1 = None ∧
      desc mem.run_existing.1.1
      = ocispec.mkDescriptor ocispec.MediaTypeImageLayerGzip
          (content.Digest info) (content.Size info).
Proof.
  destruct (commit_of mem.run_existing.2)
    as [[[[[ref dgst] commitopts] [e|]] rest]|] eqn:Hcommit;
    try discriminate Hcommit.
  assert (He : e = Wrap ErrAlreadyExists ("content " +:+ mem.blob_digest))
    by (injection Hcommit as _ _ _ He _; symmetry; exact He).
  assert (Hok : forallb ev_ok rest = true)
    by (injection Hcommit as _ _ _ _ Hrest; rewrite <- Hrest; reflexivity).
  assert (Hinfo : ∀ r rest', rest = EvInfo dgst r :: rest' →
                    info_of mem.run_existing.2 = Some (dgst, r)).
  { injection Hcommit as _ Hd _ _ Hrest. intros r rest' Heq.
    rewrite <- Hrest in Heq. rewrite <- Hd in *.
    injection Heq as <- _. reflexivity. }
  subst e. exists ref, dgst, commitopts, rest.
  split; [reflexivity|]. split; [exact Hok|].
  destruct (Compare_commit_already_exists mem.env mem.lower mem.upper []
              diff.zero _ true _ _ _ _ _ _ _ _ _
              eq_refl eq_refl run_existing_eq Hcommit)
    as (Hclean & r & rest' & Hrest & Hgood & _).
  split; [exact Hclean|].
  destruct (Hgood Hok) as (info & Hr & Herr & Hdesc).
  exists info. split; [rewrite <- Hr; exact (Hinfo _ _ Hrest)|].
  split; [exact Herr|exact Hdesc].
Defined.

Lemma Compare_label_reconciliation_witness :
  ∃ dgst info u,
    info_of mem.run_existing.2 = Some (dgst, inr info) ∧
    label_of info = None ∧
    List.filter is_update mem.run_existing.2
    = [EvUpdate (patched info (digest_SHA256 mem.env [x61; x62]))
         ["labels." +:+ uncompressed] u].
Proof.
  destruct (Compare_label_reconciliation mem.env mem.lower mem.upper []
              diff.zero _ true _ _ _ _ eq_refl eq_refl run_existing_eq)
    as [_ H].
  destruct (info_of mem.run_existing.2)
    as [[dgst [e|info]]|] eqn:Hinfo; try discriminate Hinfo.
  destruct (label_of info) as [v|] eqn:Hl.
  { injection Hinfo as <- <-. discriminate Hl. }
  destruct H as [u Hu]. exists dgst, info, u.
  split; [reflexivity|]. split; [exact Hl|]. exact Hu.
Defined.

Lemma Compare_uncompressed_label_witness :
  err mem.run_sample.1.1 = None ∧
  ∃ raw ref dgst L cr rest i0 info v,
    raw_of mem.run_sample.2 = Some raw ∧
    commit_of mem.run_sample.2 = Some (ref, dgst, Some L, cr, rest) ∧
    L !! uncompressed = Some (digest_SHA256 mem.env raw) ∧
    info_of mem.run_sample.2 = Some (dgst, inr i0) ∧
    mem.stored mem.run_sample.1.2 dgst = Some info ∧
    label_of info = Some v ∧
    match label_of i0 with
    | Some kept =>
        v = kept ∧ (cr = None → kept = digest_SHA256 mem.env raw)
    | None => v = digest_SHA256 mem.env raw
    end.
Proof.
  assert (H : err mem.run_sample.1.1 = None) by reflexivity.
  split; [exact H|].
  exact (Compare_uncompressed_label mem.env mem.stored mem_contract
           mem.lower mem.upper [] diff.zero _ _ _ _ _
           eq_refl eq_refl run_sample_eq H).
Defined.

(** ** Where the three readings fail *)

(** The blob the compressed diff produces is already in the store and
    carries an uncompressed label from an earlier writer: [Compare]
    succeeds, the commit reporting already-exists, and the label keeps
    the earlier value, which is not the digest of the raw diff bytes. *)
Lemma uncompressed_label_value_counterexample :
  err mem.run_labelled.1.1 = None ∧
  raw_of mem.run_labelled.2 = Some [x61; x62] ∧
  label_of <$> mem.stored mem.run_labelled.1.2 mem.blob_digest
  = Some (Some "sha256:earlier") ∧
  digest_SHA256 mem.env [x61; x62] ≠ "sha256:earlier" ∧
  ¬ label_is_computed_digest.
Proof.
  split; [reflexivity|].
  split; [reflexivity|].
  split; [vm_compute; reflexivity|].
  split; [vm_compute; discriminate|].
  intros H.
  destruct (H _ _ mem.env mem.stored mem_contract
              mem.lower mem.upper [] diff.zero _ mem.labelled
              _ _ _ eq_refl eq_refl run_labelled_eq eq_refl)
    as (raw & ref & dgst & commitopts & cr & rest & info
        & Hraw & Hcommit & Hst & Hlab).
  injection Hraw as <-. injection Hcommit as <- <- <- <- <-.
  vm_compute in Hst. injection Hst as <-.
  vm_compute in Hlab. discriminate Hlab.
Qed.

(** On the uncompressed path no uncompressed digest is computed, and
    yet the blob found without the label has it patched in, with the
    value the caller put among the labels. *)
Lemma reconciliation_patch_counterexample :
  applyOpts mem.caller_opts diff.zero = inr mem.caller_config ∧
  resolveMediaType mem.caller_config = inr (mem.caller_config, false) ∧
  existsb is_compress mem.run_caller.2 = false ∧
  err mem.run_caller.1.1 = None ∧
  existsb is_update mem.run_caller.2 = true ∧
  label_of <$> mem.stored mem.run_caller.1.2 mem.plain_digest
  = Some (Some "sha256:caller") ∧
  ¬ patch_requires_computed_digest.
Proof.
  split; [reflexivity|].
  split; [reflexivity|].
  split; [reflexivity|].
  split; [reflexivity|].
  split; [reflexivity|].
  split; [vm_compute; reflexivity|].
  intros H.
  specialize (H _ _ mem.env mem.lower mem.upper mem.caller_opts
                mem.caller_config mem.caller_config false
                mem.plain_existing _ _ _ eq_refl eq_refl
                run_caller_eq eq_refl).
  discriminate H.
Qed.

(** The blob the compressed diff produces is already in the store, and
    the store cannot read its metadata back: the commit reports
    already-exists, which [Compare] drops, and the failing [Info] that
    follows makes [Compare] return its error and the empty descriptor. *)
Lemma commit_already_exists_counterexample :
  (∃ ref commitopts e rest,
     commit_of mem.run_unreadable.2
     = Some (ref, mem.blob_digest, commitopts, Some e, rest) ∧
     errdefs.IsAlreadyExists e = true ∧
     rest = [EvInfo mem.blob_digest (inl (ErrNew "metadata unavailable"));
             EvUnmount "/tmp/containerd-mount1" None;
             EvUnmount "/tmp/containerd-mount0" None]) ∧
  desc mem.run_unreadable.1.1 = emptyDesc ∧
  errors.Cause <$> err mem.run_unreadable.1.1
  = Some (ErrNew "metadata unavailable") ∧
  ¬ already_exists_always_succeeds.
Proof.
  split.
  { eexists _, _, _, _. split; [vm_compute; reflexivity|].
    split; reflexivity. }
  split; [reflexivity|].
  split; [reflexivity|].
  intros H.
  destruct (H _ _ mem.env mem.lower mem.upper [] diff.zero _ true
              mem.unreadable _ _ _ _ _ _ _ _
              eq_refl eq_refl run_unreadable_eq eq_refl eq_refl)
    as [Herr _].
  discriminate Herr.
Qed.

(** ** More about [readonlyOverlay] and the rewrite of [upper] *)

Lemma upper_fold_app opt1 opt2 u :
  fold_left (λ u o, if is_upperdir o then strings.TrimPrefix o "upperdir=" else u)
    (opt1 ++ opt2) u
  = fold_left (λ u o, if is_upperdir o then strings.TrimPrefix o "upperdir=" else u)
      opt2
      (fold_left
         (λ u o, if is_upperdir o then strings.TrimPrefix o "upperdir=" else u)
         opt1 u).
Proof. apply fold_left_app. Qed.

Lemma upper_fold_none opt u :
  (∀ o, o ∈ opt → is_upperdir o = false) →
  fold_left (λ u o, if is_upperdir o then strings.TrimPrefix o "upperdir=" else u)
    opt u = u.
Proof.
  revert u. induction opt as [|o opt IH]; intros u Hc; [done|]. simpl.
  rewrite (Hc o) by left. apply IH. intros x Hx. apply Hc. by right.
Qed.

Lemma is_upperdir_app a : is_upperdir ("upperdir=" +:+ a) = true.
Proof. apply HasPrefix_app. Qed.

Lemma upper_value_last pre a post :
  (∀ o, o ∈ post → is_upperdir o = false) →
  upper_value (pre ++ ("upperdir=" +:+ a) :: post) = a.
Proof.
  intros Hpost. unfold upper_value. rewrite upper_fold_app.
  cbn [fold_left]. rewrite is_upperdir_app, TrimPrefix_app.
  by apply upper_fold_none.
Qed.

Lemma filter_kept_upperdir pre a post :
  List.filter kept (pre ++ ("upperdir=" +:+ a) :: post)
  = List.filter kept (pre ++ post).
Proof.
  rewrite !List.filter_app. cbn [List.filter]. unfold kept at 2.
  by rewrite is_upperdir_app.
Qed.

(** X1.  The output has as many entries as the input has entries that
    are neither [upperdir=] nor [workdir=]; it is never longer than the
    input. *)
Theorem readonlyOverlay_length (opt : list string) :
  length (readonlyOverlay opt) = length (List.filter kept opt) ∧
  (length (readonlyOverlay opt) ≤ length opt)%nat.
Proof.
  assert (H : length (readonlyOverlay opt) = length (List.filter kept opt)).
  { rewrite readonlyOverlay_spec.
    destruct (String.eqb (upper_value opt) ""); [done|].
    apply length_map. }
  split; [exact H|]. rewrite H. apply List.filter_length_le.
Qed.

(** X2.  Without any [upperdir=] entry the rewrite only drops the
    [workdir=] entries: every other entry, the [lowerdir=] ones included,
    is kept as it is. *)
Theorem readonlyOverlay_without_upperdir (opt : list string) :
  (∀ o, o ∈ opt → is_upperdir o = false) →
  readonlyOverlay opt = List.filter (λ o, negb (is_workdir o)) opt.
Proof.
  intros Hc. rewrite readonlyOverlay_spec.
  unfold upper_value. rewrite upper_fold_none by done. simpl.
  apply List.filter_ext_in. intros o Ho%list_elem_of_In.
  unfold kept. by rewrite (Hc o Ho).
Qed.

(** X3.  Of several [upperdir=] entries the last one decides: its value,
    when not empty, goes in front of every [lowerdir=] value, and the
    entries before it, earlier [upperdir=] entries included, are treated
    as if it were the only one. *)
Theorem readonlyOverlay_last_upperdir (pre post : list string) (a : string) :
  a ≠ "" →
  (∀ o, o ∈ post → is_upperdir o = false) →
  readonlyOverlay (pre ++ ("upperdir=" +:+ a) :: post)
  = map (with_upper a) (List.filter kept (pre ++ post)).
Proof.
  intros Ha Hpost. rewrite readonlyOverlay_spec.
  rewrite upper_value_last by done. rewrite filter_kept_upperdir.
  by destruct (String.eqb_spec a "").
Qed.

(** X4.  When the last [upperdir=] entry has an empty value, nothing is
    put in front of the [lowerdir=] values, whatever earlier [upperdir=]
    entries said: the result is the input without its [upperdir=] and
    [workdir=] entries. *)
Theorem readonlyOverlay_empty_upperdir (pre post : list string) :
  (∀ o, o ∈ post → is_upperdir o = false) →
  readonlyOverlay (pre ++ "upperdir=" :: post)
  = List.filter kept (pre ++ post).
Proof.
  intros Hpost. rewrite readonlyOverlay_spec.
  change "upperdir=" with ("upperdir=" +:+ "") at 1 2.
  rewrite upper_value_last by done. by rewrite filter_kept_upperdir.
Qed.

Lemma with_upper_other upper o :
  is_lowerdir o = false → with_upper upper o = o.
Proof. unfold with_upper, is_lowerdir. by intros ->. Qed.

Lemma with_upper_lowerdir upper o :
  is_lowerdir (with_upper upper o) = is_lowerdir o.
Proof.
  unfold with_upper, is_lowerdir.
  destruct (strings.HasPrefix o "lowerdir=") eqn:E; [|done].
  apply HasPrefix_app.
Qed.

(** X5.  The entries that are none of [upperdir=], [workdir=] and
    [lowerdir=] pass through unchanged and in their order, and the
    rewrite keeps the number of [lowerdir=] entries. *)
Theorem readonlyOverlay_passthrough (opt : list string) :
  List.filter (λ o, negb (is_lowerdir o)) (readonlyOverlay opt)
  = List.filter (λ o, kept o && negb (is_lowerdir o)) opt ∧
  length (List.filter is_lowerdir (readonlyOverlay opt))
  = length (List.filter is_lowerdir opt).
Proof.
  rewrite readonlyOverlay_spec.
  assert (Hk : ∀ f, List.filter f (List.filter kept opt)
                    = List.filter (λ o, kept o && f o) opt).
  { intros f. induction opt as [|o opt IH]; [done|]. simpl.
    destruct (kept o); simpl; [|done]. destruct (f o); by rewrite IH. }
  assert (Hl : length (List.filter (λ o, kept o && is_lowerdir o) opt)
               = length (List.filter is_lowerdir opt)).
  { f_equal. apply List.filter_ext. intros o. unfold kept, is_lowerdir.
    destruct (strings.HasPrefix o "lowerdir=") eqn:E; [|by rewrite andb_false_r].
    apply HasPrefix_inv in E. rewrite E.
    by destruct (lowerdir_clean (strings.TrimPrefix o "lowerdir=")) as [-> ->]. }
  destruct (String.eqb (upper_value opt) "").
  { by rewrite !Hk. }
  rewrite <- Hl, <- !Hk. generalize (List.filter kept opt) as l.
  intros l. split.
  - induction l as [|o l IH]; [done|]. simpl.
    rewrite with_upper_lowerdir.
    destruct (is_lowerdir o) eqn:E; simpl; [done|].
    by rewrite IH, with_upper_other.
  - induction l as [|o l IH]; [done|]. simpl.
    rewrite with_upper_lowerdir.
    destruct (is_lowerdir o); simpl; by rewrite IH.
Qed.

Lemma overlay_only_idem m : overlay_only (overlay_only m) = overlay_only m.
Proof.
  unfold overlay_only.
  destruct (String.eqb (mount.Type_ m) "overlay") eqn:E; simpl; rewrite E; [|done].
  unfold mount.set_Options. simpl. f_equal.
  apply readonlyOverlay_fixed, readonlyOverlay_clean.
Qed.

(** X6.  The rewrite that [Compare] makes of the slice [upper] keeps the
    number of mounts and the type and source of each, and is idempotent:
    a slice that an earlier [Compare] has rewritten in place is left as
    it is by the next one. *)
Theorem rewriteUpper_idempotent (upper : list mount.Mount) :
  length (rewriteUpper upper) = length upper ∧
  map mount.Type_ (rewriteUpper upper) = map mount.Type_ upper ∧
  map mount.Source (rewriteUpper upper) = map mount.Source upper ∧
  rewriteUpper (rewriteUpper upper) = rewriteUpper upper.
Proof.
  rewrite !rewriteUpper_spec. split; [apply length_map|].
  rewrite !map_map. repeat split.
  - apply map_ext. intros m. unfold overlay_only.
    by destruct (String.eqb (mount.Type_ m) "overlay").
  - apply map_ext. intros m. unfold overlay_only.
    by destruct (String.eqb (mount.Type_ m) "overlay").
  - apply map_ext. intros m. apply overlay_only_idem.
Qed.

(** ** More about the options *)

(** X7.  Options are applied left to right, each to the configuration
    the ones before it left, and the first error stops the application:
    the options after a failing one are never called. *)
Theorem applyOpts_app (opts1 opts2 : list diff.Opt) (config : diff.Config) :
  applyOpts (opts1 ++ opts2) config
  = match applyOpts opts1 config with
    | inl e => inl e
    | inr config' => applyOpts opts2 config'
    end.
Proof.
  revert config. induction opts1 as [|opt opts1 IH]; intros config; [done|].
  simpl. destruct (opt config) as [config' [e|]]; [done|]. apply IH.
Qed.

(** ** More about [Compare] *)

Section Compare_more.
Context {W CW : Type} (env : Env W CW).
Implicit Types (lower upper : list mount.Mount) (opts : list diff.Opt).
Implicit Types (config : diff.Config) (w : W) (tr : list Event).

(** X8.  When an option fails, [Compare] returns its error as it is,
    with the empty descriptor, before anything else: no call is made, the
    world is untouched and the slice [upper] is not rewritten. *)
Theorem Compare_option_error lower upper opts e w :
  applyOpts opts diff.zero = inl e →
  Compare env lower upper opts w = (mkOutcome upper emptyDesc (Some e), w, []).
Proof. intros Hopts. unfold Compare. by rewrite Hopts. Qed.

(** X9.  When mounting one of the two sets fails, [Compare] makes no
    call on the store, requests no compressed stream and streams no
    diff; it fails with the mount error as the cause.  If it was the
    upper set that failed to mount, the lower root is released. *)
Theorem Compare_mount_failure lower upper opts config w out w' tr e rest :
  applyOpts opts diff.zero = inr config →
  Compare env lower upper opts w = (out, w', tr) →
  mount_failure tr = Some (e, rest) →
  existsb is_store tr = false ∧
  existsb is_write tr = false ∧
  existsb is_compress tr = false ∧
  desc out = emptyDesc ∧
  errors.Cause <$> err out = Some (errors.Cause e) ∧
  (roots_of tr = [] ∧ rest = [] ∨
   ∃ lowerRoot u, roots_of tr = [lowerRoot] ∧ rest = [EvUnmount lowerRoot u]).
Proof.
  intros Hopts Hrun Hfail.
  run_Compare Hopts Hrun Hres.
  all: tidy.
  all: destruct_vars; simplify_eq.
  all: repeat split; eauto.
Qed.

(** X10.  The writer is requested only once both sets are mounted, the
    lower one first; it is requested under the configured reference, or
    under a generated one when none is configured, with a descriptor that
    carries the media type resolved and nothing else; no second writer is
    requested; and the diff is streamed from the lower root to the upper
    root that the two mounts returned. *)
Theorem Compare_writer_request
    lower upper opts config config' isCompressed w out w' tr
    before ref d r after :
  applyOpts opts diff.zero = inr config →
  resolveMediaType config = inr (config', isCompressed) →
  Compare env lower upper opts w = (out, w', tr) →
  writer_of tr = Some (before, ref, d, r, after) →
  ∃ lowerRoot upperRoot,
    before = [EvMount lower (inr lowerRoot);
              EvMount (rewriteUpper upper) (inr upperRoot)] ∧
    d = ocispec.mkDescriptor (diff.MediaType config') "" 0 ∧
    (if String.eqb (diff.Reference config) "" then
       ∃ t b, ref = format_ref env t b
     else ref = diff.Reference config) ∧
    existsb is_writer after = false ∧
    match diff_of tr with
    | Some (l, u, _, _, _) => l = lowerRoot ∧ u = upperRoot
    | None => True
    end.
Proof.
  intros Hopts Hres0 Hrun Hwriter.
  run_Compare Hopts Hrun Hres.
  all: tidy.
  all: try match goal with
           | H1 : diff.Reference _ = diff.Reference _,
             H : (_ =? _)%string = _ |- _ => rewrite H1 in *; rewrite H
           end.
  all: eexists _, _; repeat split; eauto.
Qed.

(** X11.  When the store refuses the writer, [Compare] fails with that
    error as the cause and does nothing more than release the mounts:
    nothing is closed or aborted, also when the reference had just been
    generated, and no diff is streamed. *)
Theorem Compare_writer_failure
    lower upper opts config w out w' tr before ref d e after :
  applyOpts opts diff.zero = inr config →
  Compare env lower upper opts w = (out, w', tr) →
  writer_of tr = Some (before, ref, d, Some e, after) →
  (∃ upperRoot lowerRoot u1 u2,
     after = [EvUnmount upperRoot u1; EvUnmount lowerRoot u2]) ∧
  desc out = emptyDesc ∧
  errors.Cause <$> err out = Some (errors.Cause e).
Proof.
  intros Hopts Hrun Hwriter.
  run_Compare Hopts Hrun Hres.
  all: tidy.
  all: destruct_vars; simplify_eq.
  all: repeat split; eauto.
Qed.

End Compare_more.

Section Compare_more2.
Context {W CW : Type} (env : Env W CW).
Implicit Types (lower upper : list mount.Mount) (opts : list diff.Opt).
Implicit Types (config : diff.Config) (w : W) (tr : list Event).

(** X12.  Once the commit has succeeded or reported already-exists,
    nothing is closed or aborted any more, also when reading the
    metadata back or patching it fails; such a failure makes [Compare]
    fail with that error as the cause, and after a failed read no patch
    is attempted. *)
Theorem Compare_committed_no_cleanup
    lower upper opts config w out w' tr ref dgst commitopts cr rest :
  applyOpts opts diff.zero = inr config →
  Compare env lower upper opts w = (out, w', tr) →
  commit_of tr = Some (ref, dgst, commitopts, cr, rest) →
  match cr with Some e => errdefs.IsAlreadyExists e = true | None => True end →
  existsb is_cleanup tr = false ∧
  match info_of tr with
  | Some (_, inl e) =>
      update_of tr = None ∧ desc out = emptyDesc ∧
      errors.Cause <$> err out = Some (errors.Cause e)
  | _ => True
  end ∧
  match update_of tr with
  | Some (_, _, inl e) =>
      desc out = emptyDesc ∧
      errors.Cause <$> err out = Some (errors.Cause e)
  | _ => True
  end.
Proof.
  intros Hopts Hrun Hcommit Hcr.
  run_Compare Hopts Hrun Hres.
  all: tidy.
  all: try congruence.
  all: destruct_vars; simplify_eq.
  all: repeat split; eauto.
Qed.

(** X13.  [Compare] succeeds exactly when every call it made passed, a
    commit that reports already-exists counting as passed.  The
    descriptor it then returns has the media type resolved and the digest
    and size that the store reported for the committed digest, and no
    cleanup has run. *)
Theorem Compare_success
    lower upper opts config config' isCompressed w out w' tr :
  applyOpts opts diff.zero = inr config →
  resolveMediaType config = inr (config', isCompressed) →
  Compare env lower upper opts w = (out, w', tr) →
  (err out = None ↔ forallb ev_passed tr = true) ∧
  (err out = None →
   existsb is_cleanup tr = false ∧
   ∃ ref dgst commitopts cr rest info,
     commit_of tr = Some (ref, dgst, commitopts, cr, rest) ∧
     info_of tr = Some (dgst, inr info) ∧
     desc out = ocispec.mkDescriptor (diff.MediaType config')
                  (content.Digest info) (content.Size info)).
Proof.
  intros Hopts Hres0 Hrun.
  run_Compare Hopts Hrun Hres.
  all: tidy.
  all: destruct_vars; simplify_eq.
  all: repeat match goal with
         | H : errdefs.IsAlreadyExists _ = _ |- _ => rewrite H
         end; simpl.
  all: split; [split; intros ?; simplify_eq; done|].
  all: intros ?; simplify_eq.
  all: split; [done|]. 
  all: by eexists _, _, _, _, _, _.
Qed.

(** X14.  The commit is issued on the writer that was opened, with size
    zero, after the diff was streamed without error.  On the uncompressed
    path it carries the labels of the configuration as they are (none
    when the configuration has none); on the compressed path it carries
    them with the uncompressed key set to the digest of the raw bytes,
    which replaces whatever the caller had put under that key. *)
Theorem Compare_commit_arguments
    lower upper opts config config' isCompressed w out w' tr
    ref dgst commitopts cr rest :
  applyOpts opts diff.zero = inr config →
  resolveMediaType config = inr (config', isCompressed) →
  Compare env lower upper opts w = (out, w', tr) →
  commit_of tr = Some (ref, dgst, commitopts, cr, rest) →
  commit_size tr = Some 0 ∧
  (∃ before after, opened tr = Some (before, ref, after)) ∧
  ∃ l u raw written,
    diff_of tr = Some (l, u, raw, written, None) ∧
    commitopts
    = if isCompressed then
        Some (<[uncompressed := digest_SHA256 env raw]>
                (default ∅ (diff.Labels config)))
      else diff.Labels config.
Proof.
  intros Hopts Hres0 Hrun Hcommit.
  run_Compare Hopts Hrun Hres.
  all: tidy.
  all: repeat match goal with
         | H : diff.Labels _ = diff.Labels _ |- _ => rewrite <- H
         end.
  all: repeat split; eauto.
  all: by eexists _, _, _, _.
Qed.


(** X16.  One [Compare] requests at most one writer, truncates, streams,
    commits, reads the metadata and patches it at most once each, and
    closes and aborts at most once; it mounts at most two sets and
    releases as many roots as it mounted. *)
Theorem Compare_calls_once lower upper opts w out w' tr :
  Compare env lower upper opts w = (out, w', tr) →
  Forall (λ kind, (length (List.filter kind tr) ≤ 1)%nat)
    [is_writer; is_truncate; is_compress; is_write; is_commit; is_info;
     is_update;
     (λ ev, match ev with EvClose _ => true | _ => false end);
     (λ ev, match ev with EvAbort _ _ => true | _ => false end)] ∧
  (length (List.filter is_mount tr) ≤ 2)%nat ∧
  length (List.filter (λ ev, match ev with EvUnmount _ _ => true | _ => false end) tr)
  = length (roots_of tr).
Proof.
  intros Hrun.
  destruct (applyOpts opts diff.zero) as [e|config] eqn:Hopts.
  { unfold Compare in Hrun. rewrite Hopts in Hrun. unfold_monad.
    simplify_eq. simpl. repeat constructor. }
  run_Compare Hopts Hrun Hres.
  all: simpl; split; [repeat constructor; simpl; lia|split; [lia|done]].
Qed.

End Compare_more2.

(** ** The further properties at concrete runs *)

Lemma run_unmountable_eq :
  Compare mem.env mem.lower mem.upper [] mem.unmountable
  = (mem.run_unmountable.1.1, mem.run_unmountable.1.2, mem.run_unmountable.2).
Proof. vm_compute. reflexivity. Qed.

Lemma run_locked_eq :
  Compare mem.env mem.lower mem.upper [] mem.locked
  = (mem.run_locked.1.1, mem.run_locked.1.2, mem.run_locked.2).
Proof. vm_compute. reflexivity. Qed.

Lemma readonlyOverlay_without_upperdir_witness :
  readonlyOverlay ["lowerdir=/b"; "workdir=/w"; "ro"]
  = List.filter (λ o, negb (is_workdir o)) ["lowerdir=/b"; "workdir=/w"; "ro"].
Proof.
  apply readonlyOverlay_without_upperdir.
  intros o Ho. apply list_elem_of_In in Ho.
  destruct Ho as [<-|[<-|[<-|[]]]]; reflexivity.
Defined.

Lemma readonlyOverlay_last_upperdir_witness :
  readonlyOverlay
    (["upperdir=/old"; "lowerdir=/b"] ++ ("upperdir=" +:+ "/a") :: ["workdir=/d"])
  = map (with_upper "/a")
      (List.filter kept (["upperdir=/old"; "lowerdir=/b"] ++ ["workdir=/d"])).
Proof.
  apply readonlyOverlay_last_upperdir; [discriminate|].
  intros o Ho. apply list_elem_of_In in Ho.
  destruct Ho as [<-|[]]; reflexivity.
Defined.

Lemma readonlyOverlay_empty_upperdir_witness :
  readonlyOverlay
    (["upperdir=/old"; "lowerdir=/b"] ++ "upperdir=" :: ["workdir=/d"])
  = List.filter kept (["upperdir=/old"; "lowerdir=/b"] ++ ["workdir=/d"]).
Proof.
  apply readonlyOverlay_empty_upperdir.
  intros o Ho. apply list_elem_of_In in Ho.
  destruct Ho as [<-|[]]; reflexivity.
Defined.

Lemma Compare_option_error_witness :
  Compare mem.env mem.lower mem.upper
    [diff.WithReference "layer-1"; mem.bad_option] mem.sample
  = (mkOutcome mem.upper emptyDesc (Some (ErrNew "bad option")),
     mem.sample, []).
Proof.
  exact (Compare_option_error mem.env mem.lower mem.upper
           [diff.WithReference "layer-1"; mem.bad_option]
           (ErrNew "bad option") mem.sample eq_refl).
Defined.

Lemma Compare_mount_failure_witness :
  ∃ e rest,
    mount_failure mem.run_unmountable.2 = Some (e, rest) ∧
    existsb is_store mem.run_unmountable.2 = false ∧
    existsb is_write mem.run_unmountable.2 = false ∧
    existsb is_compress mem.run_unmountable.2 = false ∧
    desc mem.run_unmountable.1.1 = emptyDesc ∧
    errors.Cause <$> err mem.run_unmountable.1.1 = Some (errors.Cause e) ∧
    (roots_of mem.run_unmountable.2 = [] ∧ rest = [] ∨
     ∃ lowerRoot u, roots_of mem.run_unmountable.2 = [lowerRoot]
                    ∧ rest = [EvUnmount lowerRoot u]).
Proof.
  destruct (mount_failure mem.run_unmountable.2)
    as [[e rest]|] eqn:Hfail; [|discriminate Hfail].
  exists e, rest. split; [reflexivity|].
  exact (Compare_mount_failure mem.env mem.lower mem.upper [] diff.zero
           mem.unmountable _ _ _ e rest eq_refl run_unmountable_eq Hfail).
Defined.

Lemma Compare_writer_request_witness :
  ∃ before ref d r after,
    writer_of mem.run_supplied.2 = Some (before, ref, d, r, after) ∧
    ref = "layer-1" ∧
    d = ocispec.mkDescriptor ocispec.MediaTypeImageLayerGzip "" 0.
Proof.
  destruct (writer_of mem.run_supplied.2)
    as [[[[[before ref] d] r] after]|] eqn:Hwriter; [|discriminate Hwriter].
  destruct (Compare_writer_request mem.env mem.lower mem.upper
              [diff.WithReference "layer-1"]
              (diff.set_Reference diff.zero "layer-1") _ true
              mem.sample _ _ _ _ _ _ _ _
              eq_refl eq_refl run_supplied_eq Hwriter)
    as (lr & ur & _ & Hd & Href & _).
  exists before, ref, d, r, after.
  split; [reflexivity|]. split; [exact Href|exact Hd].
Defined.

Lemma Compare_writer_failure_witness :
  ∃ before ref d e after,
    writer_of mem.run_locked.2 = Some (before, ref, d, Some e, after) ∧
    (∃ upperRoot lowerRoot u1 u2,
       after = [EvUnmount upperRoot u1; EvUnmount lowerRoot u2]) ∧
    desc mem.run_locked.1.1 = emptyDesc ∧
    errors.Cause <$> err mem.run_locked.1.1 = Some (errors.Cause e).
Proof.
  destruct (writer_of mem.run_locked.2)
    as [[[[[before ref] d] [e|]] after]|] eqn:Hwriter;
    try discriminate Hwriter.
  exists before, ref, d, e, after. split; [reflexivity|].
  exact (Compare_writer_failure mem.env mem.lower mem.upper [] diff.zero
           mem.locked _ _ _ _ _ _ _ _ eq_refl run_locked_eq Hwriter).
Defined.

Lemma Compare_committed_no_cleanup_witness :
  existsb is_cleanup mem.run_existing.2 = false.
Proof.
  destruct (commit_of mem.run_existing.2)
    as [[[[[ref dgst] commitopts] cr] rest]|] eqn:Hcommit;
    [|discriminate Hcommit].
  refine (proj1 (Compare_committed_no_cleanup mem.env mem.lower mem.upper []
                   diff.zero mem.existing _ _ _ _ _ _ _ _
                   eq_refl run_existing_eq Hcommit _)).
  injection Hcommit as <- <- <- <- <-. reflexivity.
Defined.

Lemma Compare_success_witness :
  forallb ev_passed mem.run_existing.2 = true ∧
  err mem.run_existing.1.1 = None.
Proof.
  assert (H : forallb ev_passed mem.run_existing.2 = true) by reflexivity.
  split; [exact H|].
  exact (proj2 (proj1 (Compare_success mem.env mem.lower mem.upper []
                         diff.zero _ true mem.existing _ _ _
                         eq_refl eq_refl run_existing_eq)) H).
Defined.

Lemma Compare_commit_arguments_witness :
  ∃ ref dgst commitopts cr rest,
    commit_of mem.run_sample.2 = Some (ref, dgst, commitopts, cr, rest) ∧
    commit_size mem.run_sample.2 = Some 0 ∧
    ∃ l u raw written,
      diff_of mem.run_sample.2 = Some (l, u, raw, written, None) ∧
      commitopts
      = Some (<[uncompressed := digest_SHA256 mem.env raw]>
                (default ∅ (diff.Labels diff.zero))).
Proof.
  destruct (commit_of mem.run_sample.2)
    as [[[[[ref dgst] commitopts] cr] rest]|] eqn:Hcommit;
    [|discriminate Hcommit].
  destruct (Compare_commit_arguments mem.env mem.lower mem.upper []
              diff.zero _ true mem.sample _ _ _ _ _ _ _ _
              eq_refl eq_refl run_sample_eq Hcommit)
    as (Hsize & _ & Hrest).
  exists ref, dgst, commitopts, cr, rest.
  split; [reflexivity|]. split; [exact Hsize|exact Hrest].
Defined.


Lemma Compare_calls_once_witness :
  (length (List.filter is_mount mem.run_failing.2) ≤ 2)%nat.
Proof.
  exact (proj1 (proj2 (Compare_calls_once mem.env mem.lower mem.upper []
                         mem.failing _ _ _ run_failing_eq))).
Defined.
